(** * Option strategy simulator: surface engine and simulation loop

    A shallow embedding of [simulator/chain.py], [simulator/position.py],
    [simulator/status.py], [simulator/action.py] and
    [simulator/simulator.py], and the properties of the written
    specification that can be stated over it.

    Conventions of the embedding.
    - Python floats are idealised as real numbers ([R]).  Where the code
      clamps or takes the root of an interpolated value, which numpy
      lets be an infinity or NaN, the value is an extended real
      ([xreal]); anywhere else a computation that would produce an
      infinity or NaN is reported as the outcome [Raise NonFinite].
    - [pd.Timestamp] and [pd.Timedelta] values are whole seconds ([Z]).
    - A Python exception is the [Raise] outcome of the [result] monad.
    - The third-party numerical routines (py_vollib's pricing, delta and
      implied-volatility inversion, scipy's [fsolve]) are not part of the
      repository: they are the fields of the interface [Externals]. *)

From Stdlib Require Import Reals Lra Lia ZArith List Bool Sorted.
Import ListNotations.

Local Open Scope R_scope.

(** ** Exceptions and the error monad *)

Inductive exn : Set :=
| IndexError
| ValueError
| TypeError
| ZeroDivisionError
| AttributeError
| NonFinite
| LibraryError (code : Z).

Inductive result (A : Type) : Type :=
| Ok (a : A)
| Raise (e : exn).

Arguments Ok {A} a.
Arguments Raise {A} e.

Definition bind {A B : Type} (m : result A) (k : A -> result B) : result B :=
  match m with
  | Ok a => k a
  | Raise e => Raise e
  end.

Notation "x <- m ;; k" := (bind m (fun x => k))
  (at level 61, m at next level, right associativity).
Notation "' pat <- m ;; k" := (bind m (fun x => match x with pat => k end))
  (at level 61, pat pattern, m at next level, right associativity).

Definition is_ok {A : Type} (m : result A) : bool :=
  match m with Ok _ => true | Raise _ => false end.

(** ** Comparisons on floats, as booleans *)

Definition Rltb (a b : R) : bool := if Rlt_dec a b then true else false.
Definition Rleb (a b : R) : bool := if Rle_dec a b then true else false.
Definition Reqb (a b : R) : bool := if Req_dec_T a b then true else false.

(** Floats that may be infinite or NaN. *)
Inductive xreal : Set :=
| Fin (r : R)
| PInf
| NInf
| NaN.

(** IEEE [<]: false as soon as one side is NaN. *)
Definition x_ltb (a b : xreal) : bool :=
  match a, b with
  | NaN, _ | _, NaN => false
  | Fin u, Fin v => Rltb u v
  | NInf, NInf => false
  | NInf, _ => true
  | _, PInf => match a with PInf => false | _ => true end
  | _, _ => false
  end.

(** The builtins [max(a, b)] and [min(a, b)]: the first argument is kept
    unless the second is strictly beyond it. *)
Definition py_max (a b : xreal) : xreal := if x_ltb a b then b else a.
Definition py_min (a b : xreal) : xreal := if x_ltb b a then b else a.

(** [float(v)] where the embedding goes on with a real number. *)
Definition to_float (v : xreal) : result R :=
  match v with
  | Fin r => Ok r
  | _ => Raise NonFinite
  end.

(** numpy's [v / tau] for a finite divisor: no exception on zero. *)
Definition x_div (v : xreal) (tau : R) : xreal :=
  match v with
  | Fin a =>
      if Req_dec_T tau 0 then
        if Req_dec_T a 0 then NaN else if Rlt_dec 0 a then PInf else NInf
      else Fin (a / tau)
  | PInf => if Rlt_dec tau 0 then NInf else PInf
  | NInf => if Rlt_dec tau 0 then PInf else NInf
  | NaN => NaN
  end.

(** [float(math.sqrt(v))]: a negative argument raises [ValueError], an
    infinite or NaN one is handed back as it is. *)
Definition math_sqrt (v : xreal) : result R :=
  match v with
  | Fin a => if Rlt_dec a 0 then Raise ValueError else Ok (sqrt a)
  | NInf => Raise ValueError
  | PInf | NaN => Raise NonFinite
  end.

(** [int(x)] on a float truncates towards zero. *)
Definition py_int (x : R) : Z :=
  if Rle_dec 0 x then Zfloor x else (- Zfloor (- x))%Z.

(** ** Lists as numpy arrays and pandas columns *)

(** Stable insertion sort, used for [ndarray.sort], [sort_values] and the
    reordering [interp1d] applies to its nodes. *)
Fixpoint insert_by {A : Type} (leb : A -> A -> bool) (a : A) (l : list A)
  : list A :=
  match l with
  | [] => [a]
  | b :: l' => if leb a b then a :: l else b :: insert_by leb a l'
  end.

Definition sort_by {A : Type} (leb : A -> A -> bool) (l : list A) : list A :=
  fold_right (insert_by leb) [] l.

(** [a[i]] on a one-dimensional array: negative indices count from the
    end, anything outside [-len, len) raises [IndexError]. *)
Definition np_index {A : Type} (a : list A) (i : Z) : result A :=
  let n := Z.of_nat (length a) in
  let j := if (i <? 0)%Z then (n + i)%Z else i in
  if ((0 <=? j)%Z && (j <? n)%Z)%bool then
    match nth_error a (Z.to_nat j) with
    | Some v => Ok v
    | None => Raise IndexError
    end
  else Raise IndexError.

(** [a.max()] and [a.min()]: a reduction with no identity, so the empty
    array raises [ValueError]. *)
Definition np_max (a : list R) : result R :=
  match a with
  | [] => Raise ValueError
  | x :: l => Ok (fold_left Rmax l x)
  end.

Definition np_min (a : list R) : result R :=
  match a with
  | [] => Raise ValueError
  | x :: l => Ok (fold_left Rmin l x)
  end.

(** ** scipy's [interp1d(xs, ys, kind="linear", fill_value="extrapolate")] *)

(** [slope * (x - x_lo) + y_lo] with [slope = (y_hi - y_lo) / (x_hi - x_lo)];
    two nodes at the same abscissa make the slope infinite or NaN. *)
Definition line (x0 y0 x1 y1 x : R) : xreal :=
  if Req_dec_T x1 x0 then
    if Req_dec_T y1 y0 then NaN
    else if Req_dec_T x x0 then NaN
    else if Bool.eqb (Rltb y0 y1) (Rltb x0 x) then PInf else NInf
  else Fin ((y1 - y0) / (x1 - x0) * (x - x0) + y0).

(** The segment used for [x] is the first one whose right node is not
    below [x] ([searchsorted] clipped to [1 .. n-1]); the first and the
    last segment extend beyond the nodes. *)
Fixpoint interp_segments (x x0 y0 x1 y1 : R) (rest : list (R * R))
  : xreal :=
  match rest with
  | [] => line x0 y0 x1 y1 x
  | (x2, y2) :: rest' =>
      if Rle_dec x x1 then line x0 y0 x1 y1 x
      else interp_segments x x1 y1 x2 y2 rest'
  end.

Definition node_leb (a b : R * R) : bool := Rleb (fst a) (fst b).

(** The nodes are first put in ascending order.  No node at all is
    refused with [ValueError]; a single node is accepted (scipy 1.1 and
    later) and then serves as both ends of its segment, so that the
    slope is 0/0. *)
Definition interp1d (xs ys : list R) (x : R) : result xreal :=
  if negb (length xs =? length ys)%nat then Raise ValueError
  else
    match sort_by node_leb (combine xs ys) with
    | [] => Raise ValueError
    | [(x0, y0)] => Ok (line x0 y0 x0 y0 x)
    | (x0, y0) :: (x1, y1) :: rest => Ok (interp_segments x x0 y0 x1 y1 rest)
    end.

(** ** The quote snapshot *)

Inductive option_type : Set := call | put.

Definition option_type_eqb (a b : option_type) : bool :=
  match a, b with
  | call, call | put, put => true
  | _, _ => false
  end.

Inductive price_side : Set := bid | mark | ask.

(** One row of the snapshot table.  The optional columns [iv_ratio] and
    [spot_ratio] are filled with their defaults when the table is
    loaded, so a row always carries them. *)
Record quote : Type := mk_quote {
  q_timestamp : Z;
  q_expiration : Z;
  q_type : option_type;
  q_strike : R;
  q_bid_price : R;
  q_mark_price : R;
  q_ask_price : R;
  q_underlying_price : R;
  q_iv_ratio : R;
  q_spot_ratio : R
}.

Definition side_price (s : price_side) (q : quote) : R :=
  match s with
  | bid => q_bid_price q
  | mark => q_mark_price q
  | ask => q_ask_price q
  end.

(** One row of the filtered price table built by [_get_price_chain]; the
    fields are its columns [p], [K], [exp] and [iv_ratio]. *)
Record price_row : Type := mk_price_row {
  c_p : R;
  c_K : R;
  c_exp : Z;
  c_iv_ratio : R
}.

(** [Series.mean()]; the mean of no rows is NaN in pandas and not
    meaningful here. *)
Definition mean (l : list R) : R :=
  fold_left Rplus l 0 / INR (length l).

Record OptionChain : Type := mk_OptionChain {
  oc_chain : list quote;
  oc_iv_margin : R;
  oc_default_iv : R;
  oc_spot : R;
  oc_rf : R
}.

(** [OptionChain.__init__] *)
Definition new_OptionChain (rows : list quote) (default_iv iv_margin rf : R)
  : OptionChain :=
  {| oc_chain := rows;
     oc_iv_margin := iv_margin;
     oc_default_iv := default_iv;
     oc_spot := mean (map (fun q => q_underlying_price q * q_spot_ratio q) rows);
     oc_rf := rf |}.

(** ** Bracket selection (lines 74-85 of [_get_strike_iv_interpolator]) *)

(** [price_chain["exp"].value_counts()] restricted to counts of at least
    two, then [.index.values] sorted in place: the maturities quoted on
    at least two rows, ascending and without repetition. *)
Definition exp_multiple (price_chain : list price_row) : list Z :=
  let exps := map c_exp price_chain in
  sort_by Z.leb
    (nodup Z.eq_dec
       (filter (fun e => (2 <=? count_occ Z.eq_dec exps e)%nat) exps)).

Definition earlier_exps (exp_multiple : list Z) (exp : Z) : list Z :=
  filter (fun e => (e <? exp)%Z) exp_multiple.

Definition later_exps (exp_multiple : list Z) (exp : Z) : list Z :=
  filter (fun e => (exp <=? e)%Z) exp_multiple.

Definition select_bracket (exp_multiple : list Z) (exp : Z)
  : result (Z * Z) :=
  let earlier := earlier_exps exp_multiple exp in
  let later := later_exps exp_multiple exp in
  if (length earlier =? 0)%nat then
    lo <- np_index later 0 ;;
    hi <- np_index later 1 ;;
    Ok (lo, hi)
  else if (length later =? 0)%nat then
    lo <- np_index earlier (-2) ;;
    hi <- np_index earlier (-1) ;;
    Ok (lo, hi)
  else
    lo <- np_index earlier (-1) ;;
    hi <- np_index later 1 ;;
    Ok (lo, hi).

(** ** The numerical routines the chain calls *)

(** [scipy.optimize.fsolve(f, x0)] called without [full_output]: an
    exception of [f], or of the solver on improper input, propagates;
    otherwise the final iterate comes back as an array.  The MINPACK
    status [ier] (1: converged, 2 to 5: gave up) is only reported through
    [warnings.warn], which line 14 of [chain.py] silences for the whole
    process, so the caller of [fsolve(...)[0]] never sees it. *)
Inductive fsolve_result : Type :=
| FsolveRaise (e : exn)
| FsolveRet (x : R) (ier : Z).

Definition fsolve_converged (r : fsolve_result) : Prop :=
  match r with
  | FsolveRet _ ier => ier = 1%Z
  | FsolveRaise _ => False
  end.

Class Externals : Type := {
  (** [imp_vol_bsm(price, S, K, t, r, flag)] *)
  imp_vol_bsm : R -> R -> R -> R -> R -> option_type -> result R;
  (** [black_scholes(flag, S, K, t, r, sigma)] *)
  black_scholes : option_type -> R -> R -> R -> R -> R -> result R;
  (** [delta(flag, S, K, t, r, sigma)] *)
  delta_bsm : option_type -> R -> R -> R -> R -> R -> result R;
  fsolve : (R -> result R) -> R -> fsolve_result
}.

(** ** [OptionChain] *)

Section Chain.

Context {ext : Externals}.

Definition _linear_interpolation (x : R) (xs ys : list R) : result xreal :=
  interp1d xs ys x.

Definition _interpolate_skew_line (strike : R) (strikes ivs : list R)
  (margin : R) : result R :=
  max_iv <- np_max ivs ;;
  min_iv <- np_min ivs ;;
  iv <- _linear_interpolation strike strikes ivs ;;
  to_float (py_max (py_min (Fin (max_iv * margin)) iv) (Fin min_iv)).

(** [taus * ivs**2] with numpy's broadcasting of a one-element operand. *)
Definition variances_of (taus ivs : list R) : result (list R) :=
  if (length taus =? length ivs)%nat then
    Ok (map (fun tv => fst tv * snd tv ^ 2) (combine taus ivs))
  else
    match taus, ivs with
    | _, [v] => Ok (map (fun t => t * v ^ 2) taus)
    | [t], _ => Ok (map (fun v => t * v ^ 2) ivs)
    | _, _ => Raise ValueError
    end.

Definition _interpolate_term_structure (tau : R) (taus ivs : list R)
  : result R :=
  variances <- variances_of taus ivs ;;
  variance <- _linear_interpolation tau taus variances ;;
  math_sqrt (x_div variance tau).

(** The two loops of lines 92-116: every row is inverted inside a
    [try]; a row whose inversion raises leaves no trace. *)
Fixpoint invert_quotes (spot : R) (option_type : option_type)
  (rows : list price_row) : list R * list R :=
  match rows with
  | [] => ([], [])
  | row :: rest =>
      let tau := IZR (c_exp row) / 31536000 in
      let '(strikes, ivs) := invert_quotes spot option_type rest in
      match imp_vol_bsm (c_p row) spot (c_K row) tau 0 option_type with
      | Ok v => (c_K row :: strikes, v * c_iv_ratio row :: ivs)
      | Raise _ => (strikes, ivs)
      end
  end.

(** [price_chain[price_chain["exp"] == e].sort_values("K")] *)
Definition maturity_rows (price_chain : list price_row) (e : Z)
  : list price_row :=
  sort_by (fun a b => Rleb (c_K a) (c_K b))
    (filter (fun r => (c_exp r =? e)%Z) price_chain).

(** The function returned by [_get_strike_iv_interpolator] in the
    bracketed case (lines 118-139). *)
Definition bracket_iv (margin : R) (exp exp_lo exp_hi : Z)
  (lo hi : list R * list R) (strike : R) : result R :=
  iv_lo <- _interpolate_skew_line strike (fst lo) (snd lo) margin ;;
  iv_hi <- _interpolate_skew_line strike (fst hi) (snd hi) margin ;;
  _interpolate_term_structure (IZR exp) [IZR exp_lo; IZR exp_hi]
    [iv_lo; iv_hi].

Definition _get_strike_iv_interpolator (self : OptionChain)
  (price_chain : list price_row) (exp : Z) (option_type : option_type)
  : result (R -> result R) :=
  if (length price_chain =? 0)%nat then
    Ok (fun strike => Ok (oc_default_iv self))
  else
    let exp_mult := exp_multiple price_chain in
    if (2 <=? length exp_mult)%nat then
      '(exp_lo, exp_hi) <- select_bracket exp_mult exp ;;
      let chain_lo := maturity_rows price_chain exp_lo in
      let chain_hi := maturity_rows price_chain exp_hi in
      let lo := invert_quotes (oc_spot self) option_type chain_lo in
      let hi := invert_quotes (oc_spot self) option_type chain_hi in
      Ok (bracket_iv (oc_iv_margin self) exp exp_lo exp_hi lo hi)
    else
      Ok (fun strike => Ok (oc_default_iv self)).

Definition _interpolate_chain (self : OptionChain)
  (chain_side : list price_row) (strike : R) (exp : Z)
  (option_type : option_type) : result R :=
  iv_func <- _get_strike_iv_interpolator self chain_side exp option_type ;;
  iv_func strike.

(** The column the source calls [intrinsic_value]: the premium in excess
    of the exercise value. *)
Definition intrinsic_value (spot : R) (option_type : option_type)
  (row : price_row) : R :=
  c_p row - match option_type with
            | call => spot - c_K row
            | put => c_K row - spot
            end.

Definition _get_price_chain (self : OptionChain) (option_type : option_type)
  (side : price_side) : list price_row :=
  let df := filter (fun q => option_type_eqb (q_type q) option_type)
              (oc_chain self) in
  let df := map (fun q =>
                   {| c_p := side_price side q * oc_spot self;
                      c_K := q_strike q * q_spot_ratio q;
                      c_exp := (q_expiration q - q_timestamp q)%Z;
                      c_iv_ratio := q_iv_ratio q |}) df in
  filter (fun row => Rltb 0 (intrinsic_value (oc_spot self) option_type row))
    df.

Definition seconds_of_days (days_to_maturity : R) : Z :=
  py_int (days_to_maturity * 24 * 60 * 60).

Definition years_of_seconds (exp : Z) : R :=
  IZR exp / 60 / 60 / 24 / 365.25.

Definition get_price_by_strike (self : OptionChain) (strike : R)
  (days_to_maturity : R) (option_type : option_type) (side : price_side)
  : result (R * R * R) :=
  let exp := seconds_of_days days_to_maturity in
  let tau := years_of_seconds exp in
  let price_chain := _get_price_chain self option_type side in
  iv <- _interpolate_chain self price_chain strike exp option_type ;;
  price <- black_scholes option_type (oc_spot self) strike tau (oc_rf self)
             iv ;;
  Ok (price, strike, iv).

Definition get_price_by_moneyness (self : OptionChain) (moneyness : R)
  (days_to_maturity : R) (option_type : option_type) (side : price_side)
  : result (R * R * R) :=
  let exp := seconds_of_days days_to_maturity in
  let tau := years_of_seconds exp in
  let price_chain := _get_price_chain self option_type side in
  strike <- match option_type with
            | call => if Req_dec_T (1 + moneyness) 0
                      then Raise NonFinite
                      else Ok (oc_spot self / (1 + moneyness))
            | put => if Req_dec_T (1 - moneyness) 0
                     then Raise NonFinite
                     else Ok (oc_spot self / (1 - moneyness))
            end ;;
  iv <- _interpolate_chain self price_chain strike exp option_type ;;
  price <- black_scholes option_type (oc_spot self) strike tau (oc_rf self)
             iv ;;
  Ok (price, strike, iv).

(** [float(fsolve(f, x0=x0)[0])] *)
Definition solve_strike (f : R -> result R) (x0 : R) : result R :=
  match fsolve f x0 with
  | FsolveRaise e => Raise e
  | FsolveRet x ier => Ok x
  end.

Definition get_price_by_delta (self : OptionChain) (delta : R)
  (days_to_maturity : R) (option_type : option_type) (side : price_side)
  : result (R * R * R) :=
  let exp := seconds_of_days days_to_maturity in
  let tau := years_of_seconds exp in
  let price_chain := _get_price_chain self option_type side in
  iv_interp <- _get_strike_iv_interpolator self price_chain exp option_type ;;
  let delta_interp := fun k =>
    iv <- iv_interp k ;;
    delta_bsm option_type (oc_spot self) k tau (oc_rf self) iv in
  strike <- solve_strike (fun k => d <- delta_interp k ;; Ok (d - delta))
              (oc_spot self) ;;
  iv <- iv_interp strike ;;
  price <- black_scholes option_type (oc_spot self) strike tau (oc_rf self)
             iv ;;
  Ok (price, strike, iv).

Definition get_strike_by_price (self : OptionChain) (price : R)
  (days_to_maturity : R) (option_type : option_type) (side : price_side)
  : result (R * R * R) :=
  let exp := seconds_of_days days_to_maturity in
  let tau := years_of_seconds exp in
  let price_chain := _get_price_chain self option_type side in
  iv_interp <- _get_strike_iv_interpolator self price_chain exp option_type ;;
  let price_interp := fun k =>
    iv <- iv_interp k ;;
    black_scholes option_type (oc_spot self) k tau (oc_rf self) iv in
  price_guess <- price_interp (oc_spot self) ;;
  strike <- solve_strike (fun k => v <- price_interp k ;; Ok (v - price))
              price_guess ;;
  iv <- iv_interp strike ;;
  Ok (price, strike, iv).

End Chain.

(** [OptionChainTimeline]: the whole quote table and the defaults handed
    to every per-timestamp chain. *)
Record OptionChainTimeline : Type := mk_OptionChainTimeline {
  ct_chain : list quote;
  ct_default_iv : R;
  ct_iv_margin : R
}.

Definition get_timestamp_chain (self : OptionChainTimeline) (timestamp : Z)
  (risk_free_rate : R) : option R * OptionChain :=
  let rows := filter (fun q => (q_timestamp q =? timestamp)%Z)
                (ct_chain self) in
  let spot :=
    if (0 <? length rows)%nat then
      Some (mean (map (fun q => q_spot_ratio q * q_underlying_price q) rows))
    else None in
  (spot,
   new_OptionChain rows (ct_default_iv self) (ct_iv_margin self)
     risk_free_rate).

(** ** [OptionPosition] *)

Record OptionPosition : Type := mk_OptionPosition {
  type : option_type;
  strike : R;
  maturity : Z;
  size : R;
  collateral_primary : R;
  collateral_secondary : R;
  iv_start : R;
  price_start : option R
}.

(** The dataclass [__eq__], field by field. *)
Definition OptionPosition_eq_dec (a b : OptionPosition) : {a = b} + {a <> b}.
Proof.
  decide equality;
    try apply Req_dec_T; try apply Z.eq_dec;
    decide equality; apply Req_dec_T.
Defined.

Definition hour : Z := 3600.
Definition day : R := 86400.
(** [pd.Timedelta("1y")], a mean Gregorian year. *)
Definition year : R := 31556952.

Section Position.

Context {ext : Externals}.

Definition is_long (self : OptionPosition) : bool := Rltb 0 (size self).

Definition is_short (self : OptionPosition) : bool := Rltb (size self) 0.

Definition is_call (self : OptionPosition) : bool :=
  option_type_eqb (type self) call.

Definition moneyness (self : OptionPosition) (spot : R) : R :=
  if is_call self then spot - strike self else strike self - spot.

Definition collateral_value (self : OptionPosition) (spot : R) : R :=
  collateral_primary self + collateral_secondary self * spot.

(** [max(0, moneyness) * self.size] *)
Definition delivery (self : OptionPosition) (spot : R) : R :=
  Rmax 0 (moneyness self spot) * size self.

Definition is_liquidated (self : OptionPosition) (spot : R) : bool :=
  Rltb (collateral_value self spot) (- delivery self spot) && is_short self.

Definition is_expired (self : OptionPosition) (time : Z) : bool :=
  (maturity self <=? time)%Z.

(** The closed-form value at the position's own starting volatility. *)
Definition own_valuation (self : OptionPosition) (spot : R) (time_left : Z)
  : result R :=
  let tau := IZR time_left / year in
  v <- black_scholes (type self) spot (strike self) tau 0 (iv_start self) ;;
  Ok (size self * v).

Definition valuation (self : OptionPosition) (spot : R) (time : Z)
  (chain : option OptionChain) : result R :=
  let time_left := (maturity self - time)%Z in
  if (time_left <=? hour)%Z then Ok (delivery self spot)
  else
    match chain with
    | None => own_valuation self spot time_left
    | Some chain =>
        let days_to_maturity := IZR time_left / day in
        match get_price_by_strike chain (strike self) days_to_maturity
                (type self) mark with
        | Ok (price, _, _) => Ok (price * size self)
        | Raise _ => own_valuation self spot time_left
        end
    end.

Definition own_delta (self : OptionPosition) (spot : R) (time_left : Z)
  (sigma : R) : result R :=
  let tau := IZR time_left / year in
  d <- delta_bsm (type self) spot (strike self) tau 0 sigma ;;
  Ok (size self * d).

Definition delta (self : OptionPosition) (spot : R) (time : Z)
  (chain : option OptionChain) : result R :=
  let time_left := (maturity self - time)%Z in
  if (time_left <=? hour)%Z then
    let has_delivery := negb (Reqb (delivery self spot) 0) in
    if has_delivery then
      Ok (if is_call self then size self else - size self)
    else Ok 0
  else
    match chain with
    | None => own_delta self spot time_left (iv_start self)
    | Some chain =>
        let days_to_maturity := IZR time_left / day in
        match
          '(_, _, iv) <- get_price_by_strike chain (strike self)
                           days_to_maturity (type self) mark ;;
          own_delta self spot time_left iv
        with
        | Ok d => Ok d
        | Raise _ => own_delta self spot time_left (iv_start self)
        end
    end.

End Position.

(** ** [SimulationStatus] *)

Record SimulationStatus : Type := mk_SimulationStatus {
  primary : R;
  secondary : R;
  positions : list OptionPosition
}.

(** The builtin [sum] over floats. *)
Definition py_sum (l : list R) : R := fold_left Rplus l 0.

(** [sum(f(p) for p in ps)] when [f] can raise. *)
Fixpoint sum_results {A : Type} (f : A -> result R) (l : list A) (acc : R)
  : result R :=
  match l with
  | [] => Ok acc
  | a :: l' => v <- f a ;; sum_results f l' (acc + v)
  end.

Section Status.

Context {ext : Externals}.

Definition liquidity (self : SimulationStatus) (spot : R) : R :=
  primary self + secondary self * spot.

Definition num_long_positions (self : SimulationStatus) : nat :=
  length (filter is_long (positions self)).

Definition num_short_positions (self : SimulationStatus) : nat :=
  length (filter is_short (positions self)).

Definition size_long_positions (self : SimulationStatus) : R :=
  Rabs (py_sum (map size (filter is_long (positions self)))).

Definition size_short_positions (self : SimulationStatus) : R :=
  Rabs (py_sum (map size (filter is_short (positions self)))).

Definition status_collateral_primary (self : SimulationStatus) : R :=
  py_sum (map collateral_primary (positions self)).

Definition status_collateral_secondary (self : SimulationStatus) : R :=
  py_sum (map collateral_secondary (positions self)).

Definition positions_delta (self : SimulationStatus) (spot : R) (time : Z)
  (chain : option OptionChain) : result R :=
  sum_results (fun p => delta p spot time chain) (positions self) 0.

End Status.

(** ** [SimulationAction] *)

Inductive action_type : Set := buy | sell | expiration | liquidation.

(** The [description] string is a rendering of the other fields for the
    console and is left out. *)
Record SimulationAction : Type := mk_SimulationAction {
  a_step : nat;
  a_timestamp : Z;
  a_spot : R;
  a_type : action_type;
  a_position : option OptionPosition;
  a_liquidity_change : option R
}.

(** ** [OptionSimulator] *)

(** One row of the output timeline, with the columns of
    [TIMELINE_COLUMNS]. *)
Record timeline_row : Type := mk_timeline_row {
  r_timestamp : Z;
  r_spot : R;
  r_primary : R;
  r_secondary : R;
  r_liquidity : R;
  r_num_long_positions : nat;
  r_num_short_positions : nat;
  r_size_long_positions : R;
  r_size_short_positions : R;
  r_collateral_primary : R;
  r_collateral_secondary : R;
  r_total_collaterals : R;
  r_positions_delta : R;
  r_total_delta : R;
  r_positions_value : R;
  r_total_value : R
}.

Record SimulationResult : Type := mk_SimulationResult {
  timeline : list timeline_row;
  actions : list SimulationAction
}.

(** [list.remove(x)]: the first element equal to [x] goes, and
    [ValueError] is raised when there is none. *)
Fixpoint list_remove (x : OptionPosition) (l : list OptionPosition)
  : result (list OptionPosition) :=
  match l with
  | [] => Raise ValueError
  | y :: l' =>
      if OptionPosition_eq_dec x y then Ok l'
      else l'' <- list_remove x l' ;; Ok (y :: l'')
  end.

(** The timing signal is a series indexed by timestamp, kept in index
    order, with one value per timestamp. *)
Definition timing_signal_get (signal : list (Z * nat)) (timestamp : Z)
  : option nat :=
  option_map snd (find (fun kv => (fst kv =? timestamp)%Z) signal).

(** [previous.iloc[-1] if len(previous) > 0 else 0] *)
Definition previous_signal (signal : list (Z * nat)) (timestamp : Z) : nat :=
  let previous := filter (fun kv => (fst kv <? timestamp)%Z) signal in
  last (map snd previous) 0%nat.

Section Simulator.

Context {ext : Externals}.

(** What the strategy objects remember between calls. *)
Context {Mem : Type}.

(** The strategy interface of [strategies/base_strategy.py].  [execute]
    receives the status and the action log; the strategies of the
    repository only read the log and hand back the status they were
    given, updated. *)
Record BaseOptionStrategy : Type := mk_BaseOptionStrategy {
  execute :
    Mem -> nat -> Z -> R -> SimulationStatus -> option OptionChain ->
    list SimulationAction ->
    result (Mem * SimulationStatus * list SimulationAction);
  reset : Mem -> Mem
}.

Record OptionSimulator : Type := mk_OptionSimulator {
  chain_timeline : OptionChainTimeline;
  strategies : list BaseOptionStrategy;
  timing_signal : list (Z * nat)
}.

Definition _reset_strategies (self : OptionSimulator) (mem : Mem) : Mem :=
  fold_left (fun m s => reset s m) (strategies self) mem.

(** What the generator yields at each step. *)
Definition timeline_step : Type := nat * Z * R * nat * option OptionChain.

Definition step_spot (t : timeline_step) : R :=
  let '(_, _, spot, _, _) := t in spot.

(** [int((end - start) / interval)] *)
Definition num_steps (start end_ interval : Z) : result nat :=
  if (interval =? 0)%Z then Raise ZeroDivisionError
  else Ok (Z.to_nat (Z.quot (end_ - start) interval)).

(** The body of the loop of [_iterate_timeline], for the steps
    [i, i+1, ..., i+remaining-1]. *)
Fixpoint iterate_from (self : OptionSimulator) (start interval : Z)
  (i remaining : nat) (last_spot : R) (last_chain : option OptionChain)
  : list timeline_step :=
  match remaining with
  | O => []
  | S remaining' =>
      let timestamp := (start + Z.of_nat i * interval)%Z in
      let '(spot, chain) :=
        match get_timestamp_chain (chain_timeline self) timestamp 0 with
        | (None, _) => (last_spot, last_chain)
        | (Some spot, chain) => (spot, Some chain)
        end in
      let signal :=
        match timing_signal_get (timing_signal self) timestamp with
        | Some signal => signal
        | None => previous_signal (timing_signal self) timestamp
        end in
      (i, timestamp, spot, signal, chain)
        :: iterate_from self start interval (S i) remaining' spot chain
  end.

Definition _iterate_timeline (self : OptionSimulator)
  (start end_ interval : Z) : result (list timeline_step) :=
  n <- num_steps start end_ interval ;;
  Ok (iterate_from self start interval 0 n 1 None).

Definition liquidation_action (step : nat) (time : Z) (spot : R)
  (position : OptionPosition) : SimulationAction :=
  {| a_step := step;
     a_timestamp := time;
     a_spot := spot;
     a_type := liquidation;
     a_position := Some position;
     a_liquidity_change := Some 0 |}.

(** The [for] loop of [_check_liquidations] over the positions still to
    be removed. *)
Fixpoint liquidate_all (step : nat) (time : Z) (spot : R)
  (liquidated_positions : list OptionPosition) (status : SimulationStatus)
  (actions : list SimulationAction)
  : result (SimulationStatus * list SimulationAction) :=
  match liquidated_positions with
  | [] => Ok (status, actions)
  | position :: rest =>
      positions' <- list_remove position (positions status) ;;
      let status := {| primary := primary status;
                       secondary := secondary status;
                       positions := positions' |} in
      liquidate_all step time spot rest status
        (actions ++ [liquidation_action step time spot position])
  end.

Definition _check_liquidations (step : nat) (time : Z) (spot : R)
  (status : SimulationStatus)
  : result (SimulationStatus * list SimulationAction) :=
  let liquidated_positions :=
    filter (fun p => is_liquidated p spot) (positions status) in
  liquidate_all step time spot liquidated_positions status [].

Definition expiration_action (step : nat) (time : Z) (spot : R)
  (position : OptionPosition) (liquidity_change : R) : SimulationAction :=
  {| a_step := step;
     a_timestamp := time;
     a_spot := spot;
     a_type := expiration;
     a_position := Some position;
     a_liquidity_change := Some liquidity_change |}.

(** The [for] loop of [_check_expirations]. *)
Fixpoint expire_all (step : nat) (time : Z) (spot : R)
  (expired_positions : list OptionPosition) (status : SimulationStatus)
  (actions : list SimulationAction)
  : result (SimulationStatus * list SimulationAction) :=
  match expired_positions with
  | [] => Ok (status, actions)
  | position :: rest =>
      let collateral := collateral_value position spot in
      let delivery := delivery position spot in
      let liquidity_change := delivery + collateral in
      let primary' := primary status + liquidity_change in
      positions' <- list_remove position (positions status) ;;
      let status := {| primary := primary';
                       secondary := secondary status;
                       positions := positions' |} in
      expire_all step time spot rest status
        (actions ++ [expiration_action step time spot position
                       liquidity_change])
  end.

Definition _check_expirations (step : nat) (time : Z) (spot : R)
  (status : SimulationStatus)
  : result (SimulationStatus * list SimulationAction) :=
  let expired_positions :=
    filter (fun p => is_expired p time) (positions status) in
  expire_all step time spot expired_positions status [].

Definition _get_timeline_row (time : Z) (spot : R)
  (status : SimulationStatus) (chain : option OptionChain)
  : result timeline_row :=
  let liquidity := liquidity status spot in
  let collateral_primary := status_collateral_primary status in
  let collateral_secondary := status_collateral_secondary status in
  let total_collaterals := collateral_primary + collateral_secondary * spot in
  positions_value <-
    sum_results (fun p => valuation p spot time chain) (positions status) 0 ;;
  let total_value := liquidity + positions_value + total_collaterals in
  positions_delta <- positions_delta status spot time chain ;;
  let total_delta :=
    secondary status + positions_delta + collateral_secondary in
  Ok {| r_timestamp := time;
        r_spot := spot;
        r_primary := primary status;
        r_secondary := secondary status;
        r_liquidity := liquidity;
        r_num_long_positions := num_long_positions status;
        r_num_short_positions := num_short_positions status;
        r_size_long_positions := size_long_positions status;
        r_size_short_positions := size_short_positions status;
        r_collateral_primary := collateral_primary;
        r_collateral_secondary := collateral_secondary;
        r_total_collaterals := total_collaterals;
        r_positions_delta := positions_delta;
        r_total_delta := total_delta;
        r_positions_value := positions_value;
        r_total_value := total_value |}.

(** The state the loop of [simulate] carries from one step to the next. *)
Record run_state : Type := mk_run_state {
  rs_mem : Mem;
  rs_status : SimulationStatus;
  rs_timeline : list timeline_row;
  rs_action_log : list SimulationAction
}.

(** One turn of the loop of [simulate] (lines 206-226). *)
Definition simulate_step (self : OptionSimulator) (st : run_state)
  (t : timeline_step) : result run_state :=
  let '(step, time, spot, signal, chain) := t in
  '(status, liq_actions) <-
    _check_liquidations step time spot (rs_status st) ;;
  '(status, exp_actions) <- _check_expirations step time spot status ;;
  strategy <- match nth_error (strategies self) signal with
              | Some s => Ok s
              | None => Raise IndexError
              end ;;
  '(mem, status, strategy_actions) <-
    execute strategy (rs_mem st) step time spot status chain
      (rs_action_log st) ;;
  row <- _get_timeline_row time spot status chain ;;
  Ok {| rs_mem := mem;
        rs_status := status;
        rs_timeline := rs_timeline st ++ [row];
        rs_action_log :=
          rs_action_log st ++ (liq_actions ++ exp_actions ++ strategy_actions)
     |}.

Fixpoint simulate_loop (self : OptionSimulator) (st : run_state)
  (steps : list timeline_step) : result run_state :=
  match steps with
  | [] => Ok st
  | t :: steps' =>
      st' <- simulate_step self st t ;;
      simulate_loop self st' steps'
  end.

Definition simulate (self : OptionSimulator) (mem : Mem) (start end_ : Z)
  (starting_capital : R) (time_step : Z) : result SimulationResult :=
  let mem := _reset_strategies self mem in
  let status := {| primary := starting_capital;
                   secondary := 0;
                   positions := [] |} in
  steps <- _iterate_timeline self start end_ time_step ;;
  st <- simulate_loop self
          {| rs_mem := mem; rs_status := status;
             rs_timeline := []; rs_action_log := [] |} steps ;;
  Ok {| timeline := rs_timeline st; actions := rs_action_log st |}.

End Simulator.

Arguments BaseOptionStrategy Mem : clear implicits.
Arguments OptionSimulator Mem : clear implicits.
Arguments run_state Mem : clear implicits.

(** * Vocabulary of the properties *)

(** ** The extrema of an array *)

Definition is_max (m : R) (l : list R) : Prop :=
  In m l /\ forall v, In v l -> v <= m.

Definition is_min (m : R) (l : list R) : Prop :=
  In m l /\ forall v, In v l -> m <= v.

(** ** Term structure *)

(** Variance-time interpolation in the words of the specification: the
    total variances [iv^2 * tenor] of the two bracket points are joined
    by a straight line in the tenor, and the volatility at the target
    tenor is the root of the interpolated variance over that tenor. *)
Definition interpolated_variance (t_lo iv_lo t_hi iv_hi tau : R) : R :=
  let v_lo := iv_lo ^ 2 * t_lo in
  let v_hi := iv_hi ^ 2 * t_hi in
  v_lo + (tau - t_lo) / (t_hi - t_lo) * (v_hi - v_lo).

Definition variance_time_iv (t_lo iv_lo t_hi iv_hi tau : R) : R :=
  sqrt (interpolated_variance t_lo iv_lo t_hi iv_hi tau / tau).

(** Linear interpolation of the volatilities themselves, for contrast. *)
Definition linear_iv (t_lo iv_lo t_hi iv_hi tau : R) : R :=
  iv_lo + (tau - t_lo) / (t_hi - t_lo) * (iv_hi - iv_lo).

(** ** Bracket selection *)

Definition below (exp e : Z) : Prop := (e < exp)%Z.
Definition at_or_above (exp e : Z) : Prop := (exp <= e)%Z.

(** The inversion of a row of the price table succeeds. *)
Definition inverts {ext : Externals} (spot : R) (option_type : option_type)
  (row : price_row) : bool :=
  is_ok (imp_vol_bsm (c_p row) spot (c_K row) (IZR (c_exp row) / 31536000) 0
           option_type).

(** ** Strike searches *)

(** The functions handed to the solver. *)
Definition delta_objective {ext : Externals} (self : OptionChain)
  (target days_to_maturity : R) (option_type : option_type)
  (iv_interp : R -> result R) (k : R) : result R :=
  let tau := years_of_seconds (seconds_of_days days_to_maturity) in
  d <- (iv <- iv_interp k ;;
        delta_bsm option_type (oc_spot self) k tau (oc_rf self) iv) ;;
  Ok (d - target).

Definition price_at {ext : Externals} (self : OptionChain)
  (days_to_maturity : R) (option_type : option_type)
  (iv_interp : R -> result R) (k : R) : result R :=
  let tau := years_of_seconds (seconds_of_days days_to_maturity) in
  iv <- iv_interp k ;;
  black_scholes option_type (oc_spot self) k tau (oc_rf self) iv.

Definition price_objective {ext : Externals} (self : OptionChain)
  (target days_to_maturity : R) (option_type : option_type)
  (iv_interp : R -> result R) (k : R) : result R :=
  v <- price_at self days_to_maturity option_type iv_interp k ;;
  Ok (v - target).

(** ** The checks of a step *)

(** What one expiring position adds to the primary balance. *)
Definition settlement (spot : R) (position : OptionPosition) : R :=
  delivery position spot + collateral_value position spot.

Definition liquidated_now (spot : R) (p : OptionPosition) : bool :=
  is_liquidated p spot.

Definition expired_now (time : Z) (p : OptionPosition) : bool :=
  is_expired p time.

(** ** The timeline iterator *)

(** The timestamp of step [i]. *)
Definition timestamp_at (start interval : Z) (i : nat) : Z :=
  (start + Z.of_nat i * interval)%Z.

(** The quote table has no row for the timestamp of step [i]. *)
Definition no_data {Mem : Type} (self : OptionSimulator Mem)
  (start interval : Z) (i : nat) : Prop :=
  fst (get_timestamp_chain (chain_timeline self)
         (timestamp_at start interval i) 0) = None.

(** * Example data *)

(** ** Two price tables *)

Definition week : Z := 604800.
Definition fortnight : Z := 1209600.
Definition month : Z := 2592000.

Definition quoted (p K : R) (e : Z) : price_row :=
  {| c_p := p; c_K := K; c_exp := e; c_iv_ratio := 1 |}.

(** Two strikes quoted for one week and for two weeks. *)
Definition two_maturities : list price_row :=
  [quoted 5 100 week; quoted 4 110 week;
   quoted 6 100 fortnight; quoted 5 110 fortnight].

(** The same, and two strikes quoted for thirty days. *)
Definition three_maturities : list price_row :=
  two_maturities ++ [quoted 7 100 month; quoted 6 110 month].

(** Numerical routines for the examples: an inversion that fails on
    every quote, a flat price and delta, and a solver that makes no
    progress and hands back its starting point with status 5. *)
Definition stalled : Externals :=
  {| imp_vol_bsm := fun _ _ _ _ _ _ => Raise (LibraryError 0);
     black_scholes := fun _ _ _ _ _ _ => Ok 3;
     delta_bsm := fun _ _ _ _ _ _ => Ok 0;
     fsolve := fun _ x0 => FsolveRet x0 5 |}.

Definition put_quote : quote :=
  {| q_timestamp := 0; q_expiration := week; q_type := put;
     q_strike := 90; q_bid_price := 1 / 100; q_mark_price := 1 / 100;
     q_ask_price := 1 / 100; q_underlying_price := 100;
     q_iv_ratio := 1; q_spot_ratio := 1 |}.

(** A snapshot holding one put quote, with the default parameters. *)
Definition put_only_chain : OptionChain :=
  new_OptionChain [put_quote] 1 (5 / 4) 0.

(** The liquidation scenario of the specification: a short put struck
    at 100, of size -1 and without collateral, is liquidated when the
    spot is 50. *)
Definition short_put : OptionPosition :=
  {| type := put; strike := 100; maturity := 1000000; size := -1;
     collateral_primary := 0; collateral_secondary := 0;
     iv_start := 1 / 2; price_start := None |}.

(** A long call that expired at [t = 0]. *)
Definition long_call : OptionPosition :=
  {| type := call; strike := 40; maturity := 0; size := 1;
     collateral_primary := 0; collateral_secondary := 0;
     iv_start := 1 / 2; price_start := None |}.

(** ** The fill-forward scenario of the specification *)

(** Quotes at [t = 0] and at [t = 2] hours, none at [t = 1] hour. *)
Definition later_quote : quote :=
  {| q_timestamp := 7200; q_expiration := 7200 + week; q_type := put;
     q_strike := 100; q_bid_price := 1 / 100; q_mark_price := 1 / 100;
     q_ask_price := 1 / 100; q_underlying_price := 120;
     q_iv_ratio := 1; q_spot_ratio := 1 |}.

Definition gap_timeline : OptionChainTimeline :=
  {| ct_chain := [put_quote; later_quote];
     ct_default_iv := 1; ct_iv_margin := 5 / 4 |}.

(** A strategy that never trades. *)
Definition idle : BaseOptionStrategy unit :=
  {| execute := fun mem _ _ _ status _ _ => Ok (mem, status, []);
     reset := fun mem => mem |}.

Definition gap_simulator : OptionSimulator unit :=
  {| chain_timeline := gap_timeline;
     strategies := [idle];
     timing_signal := [] |}.

Definition first_spot : R := mean [1 * 100].
Definition first_chain : OptionChain := new_OptionChain [put_quote] 1 (5 / 4) 0.

(** A strategy that reports one sale at every step. *)
Definition seller : BaseOptionStrategy unit :=
  {| execute := fun mem step time spot status _ _ =>
       Ok (mem, status,
           [{| a_step := step; a_timestamp := time; a_spot := spot;
               a_type := sell; a_position := None;
               a_liquidity_change := Some 0 |}]);
     reset := fun mem => mem |}.

Definition busy_simulator : OptionSimulator unit :=
  {| chain_timeline := gap_timeline;
     strategies := [seller];
     timing_signal := [] |}.

Definition busy_state : run_state unit :=
  {| rs_mem := tt;
     rs_status := {| primary := 1000; secondary := 0;
                     positions := [short_put; long_call] |};
     rs_timeline := [];
     rs_action_log := [] |}.

(** * The rest of the embedding: status totals, strategy helpers, a strategy *)

(** numpy's [a / b] where the embedding goes on with a real number: a
    zero divisor yields an infinity or NaN. *)
Definition np_div (a b : R) : result R :=
  if Req_dec_T b 0 then Raise NonFinite else Ok (a / b).

(** ** [SimulationStatus], continued *)

Section StatusTotals.

Context {ext : Externals}.

(** [SimulationStatus.total_value]: the positions are valued without a
    chain. *)
Definition total_value (self : SimulationStatus) (spot : R) (time : Z)
  : result R :=
  let liquidity := liquidity self spot in
  positions_value <-
    sum_results (fun p => valuation p spot time None) (positions self) 0 ;;
  let collaterals :=
    py_sum (map (fun p => collateral_value p spot) (positions self)) in
  Ok (liquidity + positions_value + collaterals).

(** [SimulationStatus.total_delta] *)
Definition total_delta (self : SimulationStatus) (spot : R) (time : Z)
  (chain : option OptionChain) : result R :=
  let liquidity_delta := secondary self in
  positions_delta <- positions_delta self spot time chain ;;
  let collateral_delta := status_collateral_secondary self in
  Ok (liquidity_delta + positions_delta + collateral_delta).

End StatusTotals.

(** ** [OptionSimulator.__init__] *)

(** What a constructor guarded by assertions comes to. *)
Inductive constructed (A : Type) : Type :=
| Constructed (a : A)
| AssertionError
| ConstructorRaised (e : exn).

Arguments Constructed {A} a.
Arguments AssertionError {A}.
Arguments ConstructorRaised {A} e.

(** The signal values are integers that are not negative by their type;
    the assertions left are that there is a strategy and that every
    signal value is the index of one.  A series that is given but empty
    makes [max] raise.  The series is kept sorted by timestamp. *)
Definition new_OptionSimulator {Mem : Type}
  (chain_timeline : OptionChainTimeline)
  (strategies : list (BaseOptionStrategy Mem))
  (timing_signal : option (list (Z * nat)))
  : constructed (OptionSimulator Mem) :=
  if negb (0 <? length strategies)%nat then AssertionError
  else
    match timing_signal with
    | Some [] => ConstructorRaised ValueError
    | Some signal =>
        if negb (fold_left Nat.max (map snd signal) 0 <? length strategies)%nat
        then AssertionError
        else
          Constructed
            {| chain_timeline := chain_timeline;
               strategies := strategies;
               timing_signal :=
                 sort_by (fun a b => (fst a <=? fst b)%Z) signal |}
    | None =>
        Constructed
          {| chain_timeline := chain_timeline;
             strategies := strategies;
             timing_signal := [] |}
    end.

(** ** [BaseOptionStrategy]: the helpers shared by the strategies *)

Definition action_type_eqb (a b : action_type) : bool :=
  match a, b with
  | buy, buy | sell, sell | expiration, expiration
  | liquidation, liquidation => true
  | _, _ => false
  end.

(** The test applied to each action of the log, newest first. *)
Definition wanted_action (filter_type : option action_type)
  (action : SimulationAction) : bool :=
  match filter_type with
  | None => match a_type action with
            | buy | sell => true
            | _ => false
            end
  | Some t => action_type_eqb (a_type action) t
  end.

Definition _get_last_strategy_action_time (action_log : list SimulationAction)
  (filter_type : option action_type) : option Z :=
  option_map a_timestamp (find (wanted_action filter_type) (rev action_log)).

Definition _add_and_rebalance (quantity : R) (status : SimulationStatus)
  (delta spot : R) : result SimulationStatus :=
  let total := liquidity status spot + quantity in
  secondary' <- np_div (total * delta) spot ;;
  Ok {| primary := total * (1 - delta);
        secondary := secondary';
        positions := positions status |}.

(** ** [OptionSellingStrategy] *)

(** [mode]: ["moneyness"], or anything else for the delta. *)
Inductive pricing_mode : Set := by_moneyness | by_delta.

Inductive collateral_mode : Set := primary_collateral | secondary_collateral.

Record OptionSellingStrategy : Type := mk_OptionSellingStrategy {
  os_trade_interval : Z;
  os_time_to_maturity : Z;
  os_maturity_days : R;
  os_collateralization_ratio : R;
  os_utilization_ratio : R;
  os_option_type : option_type;
  os_mode : pricing_mode;
  os_target : R;
  os_liquidity_delta : R;
  os_concurrency : Z;
  os_cash_collat : bool
}.

(** [OptionSellingStrategy.__init__] *)
Definition new_OptionSellingStrategy (trade_interval : Z)
  (time_to_maturity : option Z)
  (collateralization_ratio utilization_ratio : R)
  (option_type : option_type) (mode : pricing_mode)
  (target liquidity_delta : R) (collateral_mode : option collateral_mode)
  : result OptionSellingStrategy :=
  let time_to_maturity :=
    match time_to_maturity with
    | None => trade_interval
    | Some t => t
    end in
  if (trade_interval =? 0)%Z then Raise ZeroDivisionError
  else
    Ok {| os_trade_interval := trade_interval;
          os_time_to_maturity := time_to_maturity;
          os_maturity_days := IZR time_to_maturity / (24 * 60 * 60);
          os_collateralization_ratio := collateralization_ratio;
          os_utilization_ratio := utilization_ratio;
          os_option_type := option_type;
          os_mode := mode;
          os_target := target;
          os_liquidity_delta := liquidity_delta;
          os_concurrency :=
            Zceil (IZR time_to_maturity / IZR trade_interval);
          os_cash_collat :=
            match collateral_mode with
            | None => option_type_eqb option_type put
            | Some primary_collateral => true
            | Some secondary_collateral => false
            end |}.

Section OptionSelling.

Context {ext : Externals}.

(** A trade is due when the log holds no trade yet or the last one is at
    least [trade_interval] old. *)
Definition trade_due (self : OptionSellingStrategy) (time : Z)
  (action_log : list SimulationAction) : bool :=
  match _get_last_strategy_action_time action_log None with
  | None => true
  | Some last_action_time =>
      (os_trade_interval self <=? time - last_action_time)%Z
  end.

(** [chain.get_price_by_moneyness if self.mode == "moneyness" else
    chain.get_price_by_delta] *)
Definition pricing_fn (self : OptionSellingStrategy) (chain : OptionChain)
  : R -> R -> option_type -> price_side -> result (R * R * R) :=
  match os_mode self with
  | by_moneyness => get_price_by_moneyness chain
  | by_delta => get_price_by_delta chain
  end.

(** [OptionSellingStrategy.execute]; a missing chain fails at the
    attribute lookup of the pricing function. *)
Definition OptionSellingStrategy_execute (self : OptionSellingStrategy)
  (step : nat) (time : Z) (spot : R) (status : SimulationStatus)
  (chain : option OptionChain) (action_log : list SimulationAction)
  : result (SimulationStatus * list SimulationAction) :=
  if trade_due self time action_log then
    chain <- match chain with
             | Some chain => Ok chain
             | None => Raise AttributeError
             end ;;
    '(price, strike, iv) <-
      pricing_fn self chain (os_target self) (os_maturity_days self)
        (os_option_type self) bid ;;
    let liquidity := liquidity status spot in
    expenditure <-
      np_div (liquidity * os_utilization_ratio self)
        (IZR (os_concurrency self)) ;;
    per_spot <- np_div expenditure spot ;;
    position_size <- np_div per_spot (os_collateralization_ratio self) ;;
    let premium_earned := price * position_size in
    let collateral := expenditure in
    collateral_secondary <-
      (if os_cash_collat self then Ok 0 else np_div collateral spot) ;;
    let position :=
      {| type := os_option_type self;
         strike := strike;
         maturity := (time + os_time_to_maturity self)%Z;
         size := - position_size;
         collateral_primary := if os_cash_collat self then collateral else 0;
         collateral_secondary := collateral_secondary;
         iv_start := iv;
         price_start := Some price |} in
    let liquidity_change := premium_earned - collateral in
    status <- _add_and_rebalance liquidity_change status
                (os_liquidity_delta self) spot ;;
    let status := {| primary := primary status;
                     secondary := secondary status;
                     positions := positions status ++ [position] |} in
    Ok (status,
        [{| a_step := step;
            a_timestamp := time;
            a_spot := spot;
            a_type := sell;
            a_position := Some position;
            a_liquidity_change := Some liquidity_change |}])
  else Ok (status, []).

(** The strategy as the simulator sees it; it keeps nothing between
    calls. *)
Definition option_selling {Mem : Type} (self : OptionSellingStrategy)
  : BaseOptionStrategy Mem :=
  {| execute := fun mem step time spot status chain action_log =>
       '(status, new_actions) <-
         OptionSellingStrategy_execute self step time spot status chain
           action_log ;;
       Ok (mem, status, new_actions);
     reset := fun mem => mem |}.

End OptionSelling.

(** ** Vocabulary of the further properties *)

(** The strategy index a step of the timeline carries. *)
Definition step_signal (t : timeline_step) : nat :=
  let '(_, _, _, signal, _) := t in signal.

(** The step number and the timestamp a step of the timeline carries. *)
Definition step_index (t : timeline_step) : nat :=
  let '(i, _, _, _, _) := t in i.

Definition step_time (t : timeline_step) : Z :=
  let '(_, timestamp, _, _, _) := t in timestamp.

(** ** Further example data *)

(** A long call and a long put of the same strike and size. *)
Definition forward_call : OptionPosition :=
  {| type := call; strike := 100; maturity := week; size := 2;
     collateral_primary := 0; collateral_secondary := 0;
     iv_start := 1 / 2; price_start := None |}.

Definition forward_put : OptionPosition :=
  {| type := put; strike := 100; maturity := week; size := 2;
     collateral_primary := 0; collateral_secondary := 0;
     iv_start := 1 / 2; price_start := None |}.

(** A short call backed by one unit of the underlying. *)
Definition covered_call : OptionPosition :=
  {| type := call; strike := 100; maturity := week; size := -1;
     collateral_primary := 0; collateral_secondary := 1;
     iv_start := 1 / 2; price_start := None |}.

(** A seller of weekly calls, one tenth out of the money, that keeps its
    liquidity in the primary currency and backs each call with the
    underlying. *)
Definition weekly_calls : OptionSellingStrategy :=
  {| os_trade_interval := week;
     os_time_to_maturity := week;
     os_maturity_days := 7;
     os_collateralization_ratio := 1;
     os_utilization_ratio := 1;
     os_option_type := call;
     os_mode := by_moneyness;
     os_target := 1 / 10;
     os_liquidity_delta := 0;
     os_concurrency := 1;
     os_cash_collat := false |}.

(** An account holding 1000 in the primary currency and no position. *)
Definition funded : SimulationStatus :=
  {| primary := 1000; secondary := 0; positions := [] |}.

(** A sale logged at [t = 0]. *)
Definition sale_at_start : SimulationAction :=
  {| a_step := 0; a_timestamp := 0; a_spot := 100; a_type := sell;
     a_position := None; a_liquidity_change := Some 0 |}.

(** Call quotes at [t = 0], at the money and one tenth above the spot
    of 100, for one week and for two weeks. *)
Definition call_quote (k : R) (expiration : Z) : quote :=
  {| q_timestamp := 0; q_expiration := expiration; q_type := call;
     q_strike := k; q_bid_price := 1 / 100; q_mark_price := 1 / 100;
     q_ask_price := 1 / 100; q_underlying_price := 100;
     q_iv_ratio := 1; q_spot_ratio := 1 |}.

Definition listed_calls : OptionChain :=
  new_OptionChain
    [call_quote 100 week; call_quote 110 week;
     call_quote 100 fortnight; call_quote 110 fortnight] 1 (5 / 4) 0.

(** * Properties *)

(** ** Evaluating comparisons *)

Lemma Rltb_false (a b : R) : b <= a -> Rltb a b = false.
Proof. intros H. unfold Rltb. destruct (Rlt_dec a b); [lra | reflexivity]. Qed.

Lemma Rltb_iff (a b : R) : Rltb a b = true <-> a < b.
Proof.
  unfold Rltb. destruct (Rlt_dec a b); split; intros; try assumption;
    try reflexivity; try discriminate; contradiction.
Qed.

Lemma py_int_IZR (z : Z) : py_int (IZR z) = z.
Proof.
  unfold py_int. destruct (Rle_dec 0 (IZR z)) as [H | H].
  - apply Zfloor_eq. lra.
  - rewrite <- opp_IZR. rewrite (Zfloor_eq (- z)%Z) by lra. lia.
Qed.

(** Seven days to maturity are 604800 seconds. *)
Lemma seconds_of_seven_days : seconds_of_days 7 = week.
Proof.
  unfold seconds_of_days, week.
  replace (7 * 24 * 60 * 60) with (IZR 604800) by lra.
  apply py_int_IZR.
Qed.

(** ** The extrema of an array *)

Lemma fold_Rmax_spec (l : list R) (x : R) : is_max (fold_left Rmax l x) (x :: l).
Proof.
  revert x. induction l as [| y l IH]; intros x; simpl.
  - split; [now left | intros v [Hv | []]; subst; lra].
  - destruct (IH (Rmax x y)) as [Hin Hub]. split.
    + destruct Hin as [Heq | Hin]; [| now right; right].
      rewrite <- Heq. unfold Rmax. destruct (Rle_dec x y); [right | ]; now left.
    + pose proof (Hub _ (or_introl eq_refl)) as Hm.
      pose proof (Rmax_l x y). pose proof (Rmax_r x y).
      intros v [Hv | [Hv | Hv]]; subst; try lra.
      apply Hub. now right.
Qed.

Lemma fold_Rmin_spec (l : list R) (x : R) : is_min (fold_left Rmin l x) (x :: l).
Proof.
  revert x. induction l as [| y l IH]; intros x; simpl.
  - split; [now left | intros v [Hv | []]; subst; lra].
  - destruct (IH (Rmin x y)) as [Hin Hlb]. split.
    + destruct Hin as [Heq | Hin]; [| now right; right].
      rewrite <- Heq. unfold Rmin. destruct (Rle_dec x y); [ | right]; now left.
    + pose proof (Hlb _ (or_introl eq_refl)) as Hm.
      pose proof (Rmin_l x y). pose proof (Rmin_r x y).
      intros v [Hv | [Hv | Hv]]; subst; try lra.
      apply Hlb. now right.
Qed.

Lemma np_max_spec (l : list R) : l <> [] -> exists m, np_max l = Ok m /\ is_max m l.
Proof.
  destruct l as [| x l]; [congruence | intros _].
  exists (fold_left Rmax l x). split; [reflexivity | apply fold_Rmax_spec].
Qed.

Lemma np_min_spec (l : list R) : l <> [] -> exists m, np_min l = Ok m /\ is_min m l.
Proof.
  destruct l as [| x l]; [congruence | intros _].
  exists (fold_left Rmin l x). split; [reflexivity | apply fold_Rmin_spec].
Qed.

Lemma is_min_le_is_max (mn mx : R) (l : list R) :
  is_min mn l -> is_max mx l -> mn <= mx.
Proof. intros [Hin _] [_ Hub]. now apply Hub. Qed.

(** ** Sorting keeps the elements *)

Lemma insert_by_length {A : Type} (leb : A -> A -> bool) (a : A) (l : list A) :
  length (insert_by leb a l) = S (length l).
Proof.
  induction l as [| b l IH]; simpl; [reflexivity |].
  destruct (leb a b); simpl; [reflexivity | now rewrite IH].
Qed.

Lemma sort_by_length {A : Type} (leb : A -> A -> bool) (l : list A) :
  length (sort_by leb l) = length l.
Proof.
  induction l as [| a l IH]; simpl; [reflexivity |].
  unfold sort_by in *. now rewrite insert_by_length, IH.
Qed.

(** [interp1d] yields a value, finite or not, as soon as it is given as
    many ordinates as abscissas and at least one node. *)
Lemma interp1d_total (xs ys : list R) (x : R) :
  xs <> [] -> length xs = length ys -> exists v, interp1d xs ys x = Ok v.
Proof.
  intros Hne Hlen. unfold interp1d.
  rewrite Hlen, Nat.eqb_refl. simpl.
  pose proof (sort_by_length node_leb (combine xs ys)) as Hs.
  rewrite length_combine, <- Hlen, Nat.min_id in Hs.
  destruct (sort_by node_leb (combine xs ys)) as [| [x0 y0] [| [x1 y1] rest]].
  - destruct xs; [congruence | discriminate].
  - eauto.
  - eauto.
Qed.

(** ** The clamp of [_interpolate_skew_line] *)

(** Whatever the interpolation produced, infinities and NaN included,
    the clamp hands back a real number, never below the lower bound and,
    when the bounds are in order, never above the upper one. *)
Lemma clamp_bounds (hi lo : R) (iv : xreal) :
  exists r, to_float (py_max (py_min (Fin hi) iv) (Fin lo)) = Ok r /\
            lo <= r /\ (lo <= hi -> r <= hi) /\ (hi < lo -> r = lo).
Proof.
  destruct iv as [v | | |]; unfold py_min, py_max; simpl.
  - unfold Rltb. destruct (Rlt_dec v hi); simpl; unfold Rltb.
    + destruct (Rlt_dec v lo); simpl; eexists; (split; [reflexivity |]); repeat split; intros; lra.
    + destruct (Rlt_dec hi lo); simpl; eexists; (split; [reflexivity |]); repeat split; intros; lra.
  - unfold Rltb. destruct (Rlt_dec hi lo); simpl; eexists; (split; [reflexivity |]); repeat split; intros; lra.
  - eexists; (split; [reflexivity |]); repeat split; intros; lra.
  - unfold Rltb. destruct (Rlt_dec hi lo); simpl; eexists; (split; [reflexivity |]); repeat split; intros; lra.
Qed.

Lemma skew_line_clamped (strike : R) (strikes ivs : list R) (margin : R) :
  ivs <> [] -> length strikes = length ivs ->
  exists r mn mx,
    _interpolate_skew_line strike strikes ivs margin = Ok r /\
    is_min mn ivs /\ is_max mx ivs /\
    mn <= r /\
    (mn <= mx * margin -> r <= mx * margin) /\
    (mx * margin < mn -> r = mn).
Proof.
  intros Hne Hlen.
  destruct (np_max_spec ivs Hne) as (mx & Emx & Hmx).
  destruct (np_min_spec ivs Hne) as (mn & Emn & Hmn).
  assert (Hne' : strikes <> []) by (destruct strikes, ivs; simpl in *; congruence).
  destruct (interp1d_total strikes ivs strike Hne' Hlen) as (iv & Eiv).
  destruct (clamp_bounds (mx * margin) mn iv) as (r & Er & Hlo & Hhi & Heq).
  exists r, mn, mx. unfold _interpolate_skew_line, _linear_interpolation.
  rewrite Emx, Emn, Eiv. cbn [bind]. rewrite Er.
  split; [reflexivity |]. split; [exact Hmn |]. split; [exact Hmx |].
  split; [exact Hlo |]. split; [exact Hhi | exact Heq].
Qed.

(** With a slack factor of at least one and volatilities that are not
    negative the two bounds are in order, and both hold. *)
Lemma skew_line_clamped_slack (strike : R) (strikes ivs : list R) (margin : R) :
  ivs <> [] -> length strikes = length ivs ->
  1 <= margin -> (forall v, In v ivs -> 0 <= v) ->
  exists r mn mx,
    _interpolate_skew_line strike strikes ivs margin = Ok r /\
    is_min mn ivs /\ is_max mx ivs /\ mn <= r <= margin * mx.
Proof.
  intros Hne Hlen Hm Hpos.
  destruct (skew_line_clamped strike strikes ivs margin Hne Hlen)
    as (r & mn & mx & E & Hmn & Hmx & Hlo & Hhi & _).
  exists r, mn, mx.
  split; [exact E |]. split; [exact Hmn |]. split; [exact Hmx |].
  pose proof (is_min_le_is_max _ _ _ Hmn Hmx) as Hle.
  assert (Hmx0 : 0 <= mx) by (apply Hpos, Hmx).
  assert (Hprod : 0 <= mx * (margin - 1)) by (apply Rmult_le_pos; lra).
  assert (Hord : mn <= mx * margin) by lra.
  specialize (Hhi Hord). lra.
Qed.

(** C4, as amended.  For every non-empty array of observed volatilities,
    with as many strikes, and every queried strike, [_interpolate_skew_line]
    returns a value that is at least the smallest observed volatility;
    it is at most [margin] times the largest one provided the smallest
    observed volatility does not itself exceed that product. *)
Theorem skew_line_clamp_invariant (strike : R) (strikes ivs : list R)
  (margin : R) :
  ivs <> [] -> length strikes = length ivs ->
  exists r mn mx,
    _interpolate_skew_line strike strikes ivs margin = Ok r /\
    is_min mn ivs /\ is_max mx ivs /\
    mn <= r /\ (mn <= margin * mx -> r <= margin * mx).
Proof.
  intros Hne Hlen.
  destruct (skew_line_clamped strike strikes ivs margin Hne Hlen)
    as (r & mn & mx & E & Hmn & Hmx & Hlo & Hhi & _).
  exists r, mn, mx.
  split; [exact E |]. split; [exact Hmn |]. split; [exact Hmx |].
  split; [exact Hlo |].
  intros H. rewrite Rmult_comm in H |- *. auto.
Qed.

Lemma skew_line_clamp_invariant_witness :
  exists r mn mx,
    _interpolate_skew_line 200 [100; 110] [2 / 5; 1 / 2] (5 / 4) = Ok r /\
    is_min mn [2 / 5; 1 / 2] /\ is_max mx [2 / 5; 1 / 2] /\
    mn <= r /\ (mn <= 5 / 4 * mx -> r <= 5 / 4 * mx).
Proof.
  apply (skew_line_clamp_invariant 200 [100; 110] [2 / 5; 1 / 2] (5 / 4)).
  - discriminate.
  - reflexivity.
Defined.

Lemma is_min_pair (a b m : R) : a <= b -> is_min m [a; b] -> m = a.
Proof.
  intros Hab [Hin Hlb]. specialize (Hlb a (or_introl eq_refl)).
  destruct Hin as [<- | [<- | []]]; lra.
Qed.

Lemma is_max_pair (a b m : R) : a <= b -> is_max m [a; b] -> m = b.
Proof.
  intros Hab [Hin Hub]. specialize (Hub b (or_intror (or_introl eq_refl))).
  destruct Hin as [<- | [<- | []]]; lra.
Qed.

(** C4 as stated fails: with a slack factor of one half and observed
    volatilities 0.4 and 0.5 the clamp returns 0.4 at strike 105, above
    one half of the largest observed volatility. *)
Lemma skew_line_exceeds_margin :
  _interpolate_skew_line 105 [100; 110] [2 / 5; 1 / 2] (1 / 2) = Ok (2 / 5) /\
  is_max (1 / 2) [2 / 5; 1 / 2] /\
  ~ (2 / 5 <= 1 / 2 * (1 / 2)).
Proof.
  split; [| split].
  - destruct (skew_line_clamped 105 [100; 110] [2 / 5; 1 / 2] (1 / 2))
      as (r & mn & mx & E & Hmn & Hmx & _ & _ & Heq);
      [discriminate | reflexivity |].
    apply is_min_pair in Hmn; [| lra]. apply is_max_pair in Hmx; [| lra].
    subst mn mx. rewrite E. f_equal. apply Heq. lra.
  - split; [right; now left |].
    intros v [<- | [<- | []]]; lra.
  - lra.
Qed.

(** ** Term structure *)

Lemma interp1d_two_nodes (x0 y0 x1 y1 x : R) :
  x0 <> x1 ->
  interp1d [x0; x1] [y0; y1] x =
  Ok (Fin (y0 + (x - x0) / (x1 - x0) * (y1 - y0))).
Proof.
  intros Hne. unfold interp1d, sort_by, node_leb. simpl.
  unfold Rleb. destruct (Rle_dec x0 x1) as [Hle | Hgt]; simpl; unfold line.
  - destruct (Req_dec_T x1 x0); [congruence |]. do 2 f_equal. field. lra.
  - destruct (Req_dec_T x0 x1); [congruence |]. do 2 f_equal. field. lra.
Qed.

(** On two distinct bracket tenors and a non-zero target tenor the code
    takes the root of the interpolated variance over the tenor. *)
Lemma term_structure_eval (t_lo iv_lo t_hi iv_hi tau : R) :
  t_lo <> t_hi -> tau <> 0 ->
  _interpolate_term_structure tau [t_lo; t_hi] [iv_lo; iv_hi] =
  math_sqrt (Fin (interpolated_variance t_lo iv_lo t_hi iv_hi tau / tau)).
Proof.
  intros Hne Htau.
  unfold _interpolate_term_structure, _linear_interpolation, variances_of.
  cbn [length Nat.eqb combine map fst snd bind].
  rewrite (interp1d_two_nodes t_lo _ t_hi _ tau Hne). cbn [bind x_div].
  destruct (Req_dec_T tau 0); [contradiction |].
  do 2 f_equal. unfold interpolated_variance. field.
  split; [| assumption]. intros H. apply Hne. lra.
Qed.

(** Where the interpolated variance over the tenor is negative, which an
    extrapolation can produce, the root is refused. *)
Lemma term_structure_negative_variance (t_lo iv_lo t_hi iv_hi tau : R) :
  t_lo <> t_hi -> tau <> 0 ->
  interpolated_variance t_lo iv_lo t_hi iv_hi tau / tau < 0 ->
  _interpolate_term_structure tau [t_lo; t_hi] [iv_lo; iv_hi] =
  Raise ValueError.
Proof.
  intros Hne Htau Hneg. rewrite term_structure_eval by assumption.
  unfold math_sqrt. destruct (Rlt_dec _ 0); [reflexivity | contradiction].
Qed.

(** C5, as amended.  For two distinct bracket tenors with their
    skew-line volatilities and a target tenor that is not zero:
    where the variance interpolated linearly in the tenor, over the
    target tenor, is not negative, [_interpolate_term_structure] returns
    its root; where it is negative, the call raises [ValueError]. *)
Theorem term_structure_variance_time (t_lo iv_lo t_hi iv_hi tau : R) :
  t_lo <> t_hi -> tau <> 0 ->
  (0 <= interpolated_variance t_lo iv_lo t_hi iv_hi tau / tau ->
   _interpolate_term_structure tau [t_lo; t_hi] [iv_lo; iv_hi] =
   Ok (variance_time_iv t_lo iv_lo t_hi iv_hi tau)) /\
  (interpolated_variance t_lo iv_lo t_hi iv_hi tau / tau < 0 ->
   _interpolate_term_structure tau [t_lo; t_hi] [iv_lo; iv_hi] =
   Raise ValueError).
Proof.
  intros Hne Htau. split.
  - intros Hpos. rewrite term_structure_eval by assumption.
    unfold math_sqrt, variance_time_iv.
    destruct (Rlt_dec _ 0); [lra | reflexivity].
  - intros Hneg. now apply term_structure_negative_variance.
Qed.

(** The scenario of the specification: flat skews at 0.5 for 7 days and
    0.7 for 30 days, queried at 14 days. *)
Lemma term_structure_variance_time_witness :
  _interpolate_term_structure 14 [7; 30] [1 / 2; 7 / 10] =
  Ok (variance_time_iv 7 (1 / 2) 30 (7 / 10) 14).
Proof.
  assert (Hne : 7 <> 30) by lra.
  assert (Htau : 14 <> 0) by lra.
  apply (proj1 (term_structure_variance_time 7 (1 / 2) 30 (7 / 10) 14
                  Hne Htau)).
  unfold interpolated_variance. lra.
Defined.

(** C5 as stated fails for a target tenor before the bracket: with
    volatilities 0.5 at 7 days and 0.6 at 14 days, the variance
    extrapolated to 3 days is -0.13, and the call raises [ValueError]
    instead of returning a root. *)
Lemma term_structure_extrapolation_raises :
  interpolated_variance 7 (1 / 2) 14 (3 / 5) 3 = - (13 / 100) /\
  _interpolate_term_structure 3 [7; 14] [1 / 2; 3 / 5] = Raise ValueError.
Proof.
  assert (Hv : interpolated_variance 7 (1 / 2) 14 (3 / 5) 3 = - (13 / 100))
    by (unfold interpolated_variance; field).
  split; [exact Hv |].
  apply term_structure_negative_variance; [lra | lra |].
  rewrite Hv. lra.
Qed.

(** On that scenario the result lies strictly between the two bracket
    volatilities and is not the linear interpolation of the
    volatilities. *)
Lemma term_structure_not_iv_linear :
  1 / 2 < variance_time_iv 7 (1 / 2) 30 (7 / 10) 14 < 7 / 10 /\
  variance_time_iv 7 (1 / 2) 30 (7 / 10) 14 <>
  linear_iv 7 (1 / 2) 30 (7 / 10) 14.
Proof.
  unfold variance_time_iv, linear_iv.
  set (q := interpolated_variance 7 (1 / 2) 30 (7 / 10) 14 / 14).
  assert (Hq : q = 1309 / 3220) by (unfold q, interpolated_variance; field).
  assert (Hq0 : 0 <= q) by lra.
  pose proof (sqrt_pos q) as Hs0.
  pose proof (sqrt_sqrt q Hq0) as Hss.
  split; [split |].
  - destruct (Rlt_dec (1 / 2) (sqrt q)); [assumption | nra].
  - destruct (Rlt_dec (sqrt q) (7 / 10)); [assumption | nra].
  - intros Heq. rewrite Heq in Hss. lra.
Qed.

(** ** Bracket selection *)

Lemma filter_all {A : Type} (f : A -> bool) (l : list A) :
  Forall (fun a => f a = true) l -> filter f l = l.
Proof.
  induction 1 as [| a l Ha _ IH]; simpl; [reflexivity |].
  now rewrite Ha, IH.
Qed.

Lemma filter_none {A : Type} (f : A -> bool) (l : list A) :
  Forall (fun a => f a = false) l -> filter f l = [].
Proof.
  induction 1 as [| a l Ha _ IH]; simpl; [reflexivity |].
  now rewrite Ha, IH.
Qed.

Lemma np_index_from_end {A : Type} (front back : list A) (k : nat) (v : A) :
  (0 < k <= length back)%nat ->
  nth_error back (length back - k) = Some v ->
  np_index (front ++ back) (- Z.of_nat k) = Ok v.
Proof.
  intros Hk Hv. unfold np_index. rewrite length_app.
  assert (Hneg : (- Z.of_nat k <? 0)%Z = true) by (apply Z.ltb_lt; lia).
  rewrite Hneg.
  replace (Z.of_nat (length front + length back) + - Z.of_nat k)%Z
    with (Z.of_nat (length front + (length back - k))) by lia.
  assert (Hin : ((0 <=? Z.of_nat (length front + (length back - k)))%Z &&
                 (Z.of_nat (length front + (length back - k)) <?
                  Z.of_nat (length front + length back))%Z)%bool = true).
  { apply andb_true_intro. split; [apply Z.leb_le | apply Z.ltb_lt]; lia. }
  rewrite Hin, Nat2Z.id, nth_error_app2 by lia.
  replace (length front + (length back - k) - length front)%nat
    with (length back - k)%nat by lia.
  now rewrite Hv.
Qed.

Lemma np_index_from_start {A : Type} (a : list A) (i : nat) (v : A) :
  nth_error a i = Some v -> np_index a (Z.of_nat i) = Ok v.
Proof.
  intros Hv. unfold np_index.
  assert (Hi : (i < length a)%nat) by (apply nth_error_Some; congruence).
  assert (Hpos : (Z.of_nat i <? 0)%Z = false) by (apply Z.ltb_ge; lia).
  rewrite Hpos.
  assert (Hin : ((0 <=? Z.of_nat i)%Z &&
                 (Z.of_nat i <? Z.of_nat (length a))%Z)%bool = true).
  { apply andb_true_intro. split; [apply Z.leb_le | apply Z.ltb_lt]; lia. }
  now rewrite Hin, Nat2Z.id, Hv.
Qed.

Lemma insert_by_In {A : Type} (leb : A -> A -> bool) (a x : A) (l : list A) :
  In x (insert_by leb a l) -> x = a \/ In x l.
Proof.
  induction l as [| b l IH]; simpl.
  - intros [<- | []]. now left.
  - destruct (leb a b); simpl.
    + intros [<- | H]; [now left | now right].
    + intros [<- | H]; [right; now left |].
      destruct (IH H) as [-> | Hin]; [now left | right; now right].
Qed.

Lemma insert_by_Zleb_sorted (a : Z) (l : list Z) :
  StronglySorted Z.le l -> StronglySorted Z.le (insert_by Z.leb a l).
Proof.
  induction 1 as [| b l Hs IH Hb]; simpl.
  - constructor; constructor.
  - destruct (a <=? b)%Z eqn:E.
    + apply Z.leb_le in E. constructor.
      * now constructor.
      * constructor; [assumption |].
        eapply Forall_impl; [| exact Hb]. intros c Hc. simpl in Hc. lia.
    + apply Z.leb_gt in E. constructor; [assumption |].
      apply Forall_forall. intros x Hx.
      destruct (insert_by_In _ _ _ _ Hx) as [-> | Hin]; [lia |].
      rewrite Forall_forall in Hb. now apply Hb.
Qed.

(** The maturities among which the bracket is chosen are in ascending
    order, so that the first two are the nearest above a target before
    all of them, and the last two the nearest below a target beyond all
    of them. *)
Lemma exp_multiple_sorted (price_chain : list price_row) :
  StronglySorted Z.le (exp_multiple price_chain).
Proof.
  unfold exp_multiple, sort_by.
  induction (nodup Z.eq_dec _) as [| a l IH]; simpl.
  - constructor.
  - now apply insert_by_Zleb_sorted.
Qed.

Section Bracket.

Variable exp : Z.

Lemma earlier_exps_app (l1 l2 : list Z) :
  Forall (below exp) l1 -> Forall (at_or_above exp) l2 ->
  earlier_exps (l1 ++ l2) exp = l1 /\ later_exps (l1 ++ l2) exp = l2.
Proof.
  intros H1 H2. unfold earlier_exps, later_exps. rewrite !filter_app.
  rewrite (filter_all _ l1), (filter_none _ l2), (filter_none _ l1),
    (filter_all _ l2).
  - now rewrite app_nil_r.
  - eapply Forall_impl; [| exact H2]. intros e He. apply Z.leb_le, He.
  - eapply Forall_impl; [| exact H1]. intros e He. apply Z.leb_gt, He.
  - eapply Forall_impl; [| exact H2]. intros e He. apply Z.ltb_ge, He.
  - eapply Forall_impl; [| exact H1]. intros e He. apply Z.ltb_lt, He.
Qed.

(** The target is before every maturity: the first two maturities, the
    two nearest above in an ascending array. *)
Lemma select_bracket_before_all (a b : Z) (rest : list Z) :
  Forall (at_or_above exp) (a :: b :: rest) ->
  select_bracket (a :: b :: rest) exp = Ok (a, b).
Proof.
  intros H. unfold select_bracket.
  destruct (earlier_exps_app [] (a :: b :: rest) (Forall_nil _) H) as [E L].
  simpl app in E, L. rewrite E, L. cbn [length Nat.eqb].
  pose proof (np_index_from_start (a :: b :: rest) 0 a eq_refl) as I0.
  pose proof (np_index_from_start (a :: b :: rest) 1 b eq_refl) as I1.
  simpl Z.of_nat in I0, I1. rewrite I0, I1. reflexivity.
Qed.

(** The target is beyond every maturity: the last two maturities, the
    two nearest below in an ascending array. *)
Lemma select_bracket_beyond_all (front : list Z) (a b : Z) :
  Forall (below exp) (front ++ [a; b]) ->
  select_bracket (front ++ [a; b]) exp = Ok (a, b).
Proof.
  intros H. unfold select_bracket.
  destruct (earlier_exps_app (front ++ [a; b]) [] H (Forall_nil _)) as [E L].
  rewrite app_nil_r in E, L. rewrite E, L.
  rewrite length_app. simpl length at 2.
  replace (length front + 2 =? 0)%nat with false
    by (symmetry; apply Nat.eqb_neq; lia).
  cbn [length Nat.eqb].
  pose proof (np_index_from_end front [a; b] 2 a) as I2.
  pose proof (np_index_from_end front [a; b] 1 b) as I1.
  simpl in I2, I1. rewrite I2, I1 by (auto; lia). reflexivity.
Qed.

(** The target lies between two maturities [a] and [c]: the upper end of
    the bracket is read at index 1 of the later maturities, which is the
    maturity after [c], and which does not exist when [c] is the last
    maturity. *)
Lemma select_bracket_inside (front : list Z) (a c : Z) (later : list Z) :
  Forall (below exp) (front ++ [a]) -> Forall (at_or_above exp) (c :: later) ->
  select_bracket ((front ++ [a]) ++ c :: later) exp =
  match later with
  | [] => Raise IndexError
  | d :: _ => Ok (a, d)
  end.
Proof.
  intros H1 H2. unfold select_bracket.
  destruct (earlier_exps_app _ _ H1 H2) as [E L]. rewrite E, L.
  rewrite length_app. simpl length at 2.
  replace (length front + 1 =? 0)%nat with false
    by (symmetry; apply Nat.eqb_neq; lia).
  cbn [length Nat.eqb].
  pose proof (np_index_from_end front [a] 1 a) as Ia.
  simpl in Ia. rewrite Ia by (auto; lia).
  destruct later as [| d later'].
  - reflexivity.
  - pose proof (np_index_from_start (c :: d :: later') 1 d eq_refl) as I1.
    simpl Z.of_nat in I1. rewrite I1. reflexivity.
Qed.

End Bracket.

(** C1, the bracketed case on the code.  For a target of ten days and
    maturities of 7, 14 and 30 days the selected bracket is (7 days,
    30 days): the maturity immediately above the target, 14 days, is
    skipped.  With the maturities of 7 and 14 days alone, the
    construction raises [IndexError]. *)
Theorem bracket_inside_skips_nearest_later :
  exp_multiple three_maturities = [week; fortnight; month] /\
  select_bracket (exp_multiple three_maturities) 864000 = Ok (week, month) /\
  select_bracket (exp_multiple three_maturities) 864000
    <> Ok (week, fortnight) /\
  exp_multiple two_maturities = [week; fortnight] /\
  forall (ext : Externals) (self : OptionChain) (option_type : option_type),
    _get_strike_iv_interpolator self two_maturities 864000 option_type
    = Raise IndexError.
Proof.
  assert (E3 : exp_multiple three_maturities = [week; fortnight; month])
    by reflexivity.
  assert (E2 : exp_multiple two_maturities = [week; fortnight])
    by reflexivity.
  split; [exact E3 |]. split; [rewrite E3; reflexivity |].
  split; [rewrite E3; discriminate |].
  split; [exact E2 |].
  intros ext self ot. unfold _get_strike_iv_interpolator.
  change (length two_maturities =? 0)%nat with false. cbn iota.
  rewrite E2. reflexivity.
Qed.

(** ** Inversion failures *)

Section Inversion.

Context {ext : Externals}.

(** The strikes of a skew line are those of the rows whose inversion
    succeeded, in the order of the rows. *)
Lemma invert_quotes_strikes (spot : R) (option_type : option_type)
  (rows : list price_row) :
  fst (invert_quotes spot option_type rows) =
  map c_K (filter (inverts spot option_type) rows) /\
  length (snd (invert_quotes spot option_type rows)) =
  length (fst (invert_quotes spot option_type rows)).
Proof.
  induction rows as [| row rows [IH1 IH2]]; simpl; [split; reflexivity |].
  destruct (invert_quotes spot option_type rows) as [strikes ivs].
  unfold inverts at 1.
  destruct (imp_vol_bsm _ _ _ _ _ _); simpl in *; split; congruence.
Qed.

Lemma invert_quotes_all_fail (spot : R) (option_type : option_type)
  (rows : list price_row) :
  Forall (fun row => inverts spot option_type row = false) rows ->
  invert_quotes spot option_type rows = ([], []).
Proof.
  induction 1 as [| row rows Hrow _ IH]; simpl; [reflexivity |].
  rewrite IH. unfold inverts in Hrow.
  destruct (imp_vol_bsm _ _ _ _ _ _); [discriminate | reflexivity].
Qed.

End Inversion.

(** Whether the construction of the interpolator succeeds does not
    depend on the inversion routine: no failure of an inversion aborts
    it. *)
Lemma build_ignores_inversion (ext1 ext2 : Externals) (self : OptionChain)
  (price_chain : list price_row) (exp : Z) (option_type : option_type) :
  is_ok (@_get_strike_iv_interpolator ext1 self price_chain exp option_type) =
  is_ok (@_get_strike_iv_interpolator ext2 self price_chain exp option_type).
Proof.
  unfold _get_strike_iv_interpolator.
  destruct (length price_chain =? 0)%nat; [reflexivity |].
  destruct (2 <=? length (exp_multiple price_chain))%nat; [| reflexivity].
  destruct (select_bracket (exp_multiple price_chain) exp) as [[lo hi] | e];
    reflexivity.
Qed.

(** C3, the case where every quote of the lower bracket maturity fails
    inversion.  For a target of three days on the table of the 7-day and
    14-day maturities, the interpolator is built, and it raises
    [ValueError] at every strike it is queried at. *)
Theorem query_fails_on_empty_skew_line (ext : Externals) (self : OptionChain)
  (option_type : option_type) :
  Forall (fun row => inverts (oc_spot self) option_type row = false)
    (maturity_rows two_maturities week) ->
  exists iv_func,
    _get_strike_iv_interpolator self two_maturities 259200 option_type
    = Ok iv_func /\
    forall strike, iv_func strike = Raise ValueError.
Proof.
  intros Hfail. unfold _get_strike_iv_interpolator.
  change (length two_maturities =? 0)%nat with false. cbn iota.
  replace (exp_multiple two_maturities) with [week; fortnight]
    by reflexivity.
  change (select_bracket [week; fortnight] 259200) with (Ok (week, fortnight)).
  cbn [length Nat.leb bind].
  rewrite (invert_quotes_all_fail _ _ _ Hfail).
  eexists. split; [reflexivity |].
  intros strike. reflexivity.
Qed.

Lemma query_fails_on_empty_skew_line_witness :
  exists iv_func,
    @_get_strike_iv_interpolator stalled put_only_chain two_maturities 259200
      call = Ok iv_func /\
    forall strike, iv_func strike = Raise ValueError.
Proof.
  apply (query_fails_on_empty_skew_line stalled put_only_chain call).
  apply Forall_forall. intros row _. reflexivity.
Defined.

(** ** Strike searches *)

Section StrikeSearch.

Context {ext : Externals}.

Variables (self : OptionChain) (target days_to_maturity : R).
Variables (option_type : option_type) (side : price_side).

(** C2, as amended.  In a delta-targeted or price-targeted strike search
    the final iterate of the root-finder is taken as the strike whatever
    the status the solver ended with, converged or not: the two searches
    go on to compute the volatility (and the price) at that strike and
    return it. *)
Theorem strike_search_returns_final_iterate (iv_interp : R -> result R)
  (x : R) (ier : Z) :
  _get_strike_iv_interpolator self (_get_price_chain self option_type side)
    (seconds_of_days days_to_maturity) option_type = Ok iv_interp ->
  (fsolve (delta_objective self target days_to_maturity option_type iv_interp)
     (oc_spot self) = FsolveRet x ier ->
   get_price_by_delta self target days_to_maturity option_type side =
   (iv <- iv_interp x ;;
    price <- black_scholes option_type (oc_spot self) x
               (years_of_seconds (seconds_of_days days_to_maturity))
               (oc_rf self) iv ;;
    Ok (price, x, iv))) /\
  (forall price_guess,
     price_at self days_to_maturity option_type iv_interp (oc_spot self)
       = Ok price_guess ->
     fsolve
       (price_objective self target days_to_maturity option_type iv_interp)
       price_guess = FsolveRet x ier ->
     get_strike_by_price self target days_to_maturity option_type side =
     (iv <- iv_interp x ;; Ok (target, x, iv))).
Proof.
  intros Hbuild. split.
  - intros Hsolve. unfold get_price_by_delta. rewrite Hbuild.
    cbn [bind]. unfold solve_strike.
    unfold delta_objective in Hsolve. cbv zeta in Hsolve.
    rewrite Hsolve. reflexivity.
  - intros price_guess Hguess Hsolve. unfold get_strike_by_price.
    rewrite Hbuild. cbn [bind].
    unfold price_at in Hguess. cbv zeta in Hguess. rewrite Hguess.
    cbn [bind]. unfold solve_strike.
    unfold price_objective, price_at in Hsolve. cbv zeta in Hsolve.
    rewrite Hsolve. reflexivity.
Qed.

(** An exception of the solver, or of the function it evaluates, does
    reach the caller. *)
Lemma strike_search_propagates_exception (iv_interp : R -> result R)
  (e : exn) :
  _get_strike_iv_interpolator self (_get_price_chain self option_type side)
    (seconds_of_days days_to_maturity) option_type = Ok iv_interp ->
  fsolve (delta_objective self target days_to_maturity option_type iv_interp)
    (oc_spot self) = FsolveRaise e ->
  get_price_by_delta self target days_to_maturity option_type side = Raise e.
Proof.
  intros Hbuild Hsolve. unfold get_price_by_delta. rewrite Hbuild.
  cbn [bind]. unfold solve_strike.
  unfold delta_objective in Hsolve. cbv zeta in Hsolve.
  rewrite Hsolve. reflexivity.
Qed.

End StrikeSearch.

(** C2 as stated fails: the solver reports that it gave up (status 5),
    and both searches return normally, the delta-targeted one with the
    spot, its starting point, as the strike. *)
Lemma nonconverged_strike_is_returned :
  let spot := oc_spot put_only_chain in
  let flat := fun _ : R => Ok 1 in
  @fsolve stalled
    (@delta_objective stalled put_only_chain (1 / 2) 7 call flat) spot
  = FsolveRet spot 5 /\
  ~ fsolve_converged (FsolveRet spot 5) /\
  @get_price_by_delta stalled put_only_chain (1 / 2) 7 call bid
  = Ok (3, spot, 1) /\
  @get_strike_by_price stalled put_only_chain (1 / 2) 7 call bid
  = Ok (1 / 2, 3, 1).
Proof.
  cbv zeta. split; [reflexivity |]. split; [simpl; lia |].
  split; reflexivity.
Qed.

Lemma strike_search_returns_final_iterate_witness :
  @get_price_by_delta stalled put_only_chain (1 / 2) 7 call bid
  = Ok (3, oc_spot put_only_chain, 1) /\
  @get_strike_by_price stalled put_only_chain (1 / 2) 7 call bid
  = Ok (1 / 2, 3, 1).
Proof.
  split.
  - apply (proj1 (@strike_search_returns_final_iterate stalled put_only_chain
                    (1 / 2) 7 call bid (fun _ => Ok 1)
                    (oc_spot put_only_chain) 5 eq_refl)).
    reflexivity.
  - apply (proj2 (@strike_search_returns_final_iterate stalled put_only_chain
                    (1 / 2) 7 call bid (fun _ => Ok 1) 3 5 eq_refl) 3).
    + reflexivity.
    + reflexivity.
Defined.

(** ** Removing positions *)

Lemma list_remove_first (x : OptionPosition) (pre l : list OptionPosition) :
  (forall y, In y pre -> y <> x) ->
  list_remove x (pre ++ x :: l) = Ok (pre ++ l).
Proof.
  induction pre as [| y pre IH]; intros Hpre; simpl.
  - destruct (OptionPosition_eq_dec x x); [reflexivity | congruence].
  - destruct (OptionPosition_eq_dec x y) as [E | _].
    + exfalso. apply (Hpre y); [now left | now symmetry].
    + rewrite IH; [reflexivity |].
      intros z Hz. apply Hpre. now right.
Qed.

Section Checks.

Context {ext : Externals}.

Variables (step : nat) (time : Z) (spot : R).

(** The loop of [_check_liquidations], for any way of choosing the
    positions to remove: they are taken out one by one, in their order,
    from a list whose already scanned part [pre] holds none of them. *)
Lemma liquidate_all_filter (f : OptionPosition -> bool)
  (l pre : list OptionPosition) (prim sec : R)
  (acts : list SimulationAction) :
  (forall y, In y pre -> f y = false) ->
  liquidate_all step time spot (filter f l)
    {| primary := prim; secondary := sec; positions := pre ++ l |} acts =
  Ok ({| primary := prim; secondary := sec;
         positions := pre ++ filter (fun p => negb (f p)) l |},
      acts ++ map (liquidation_action step time spot) (filter f l)).
Proof.
  revert pre acts. induction l as [| a l IH]; intros pre acts Hpre.
  - simpl. now rewrite !app_nil_r.
  - simpl filter. destruct (f a) eqn:Fa; cbn [negb].
    + cbn [liquidate_all positions primary secondary].
      rewrite list_remove_first.
      * cbn [bind]. rewrite IH by assumption.
        cbn [map]. now rewrite <- app_assoc.
      * intros y Hy ->. rewrite (Hpre _ Hy) in Fa. discriminate.
    + replace (pre ++ a :: l) with ((pre ++ [a]) ++ l)
        by (now rewrite <- app_assoc).
      rewrite IH.
      * now rewrite <- app_assoc.
      * intros y Hy. apply in_app_or in Hy.
        destruct Hy as [Hy | [<- | []]]; auto.
Qed.

Lemma expire_all_filter (f : OptionPosition -> bool)
  (l pre : list OptionPosition) (prim sec : R)
  (acts : list SimulationAction) :
  (forall y, In y pre -> f y = false) ->
  expire_all step time spot (filter f l)
    {| primary := prim; secondary := sec; positions := pre ++ l |} acts =
  Ok ({| primary := fold_left (fun acc p => acc + settlement spot p) (filter f l)
                      prim;
         secondary := sec;
         positions := pre ++ filter (fun p => negb (f p)) l |},
      acts ++ map (fun p => expiration_action step time spot p (settlement spot p))
                (filter f l)).
Proof.
  revert pre prim acts. induction l as [| a l IH]; intros pre prim acts Hpre.
  - simpl. now rewrite !app_nil_r.
  - simpl filter. destruct (f a) eqn:Fa; cbn [negb].
    + cbn [expire_all positions primary secondary].
      rewrite list_remove_first.
      * cbn [bind]. rewrite IH by assumption.
        cbn [map fold_left]. now rewrite <- app_assoc.
      * intros y Hy ->. rewrite (Hpre _ Hy) in Fa. discriminate.
    + replace (pre ++ a :: l) with ((pre ++ [a]) ++ l)
        by (now rewrite <- app_assoc).
      rewrite IH.
      * now rewrite <- app_assoc.
      * intros y Hy. apply in_app_or in Hy.
        destruct Hy as [Hy | [<- | []]]; auto.
Qed.

Lemma _check_liquidations_eq (status : SimulationStatus) :
  _check_liquidations step time spot status =
  Ok ({| primary := primary status; secondary := secondary status;
         positions := filter (fun p => negb (liquidated_now spot p))
                        (positions status) |},
      map (liquidation_action step time spot)
        (filter (liquidated_now spot) (positions status))).
Proof.
  unfold _check_liquidations. destruct status as [prim sec ps].
  cbn [positions primary secondary].
  exact (liquidate_all_filter (liquidated_now spot) ps [] prim sec []
           (fun y (H : In y []) => match H with end)).
Qed.

Lemma _check_expirations_eq (status : SimulationStatus) :
  _check_expirations step time spot status =
  Ok ({| primary := fold_left (fun acc p => acc + settlement spot p)
                      (filter (expired_now time) (positions status))
                      (primary status);
         secondary := secondary status;
         positions := filter (fun p => negb (expired_now time p))
                        (positions status) |},
      map (fun p => expiration_action step time spot p (settlement spot p))
        (filter (expired_now time) (positions status))).
Proof.
  unfold _check_expirations. destruct status as [prim sec ps].
  cbn [positions primary secondary].
  exact (expire_all_filter (expired_now time) ps [] prim sec []
           (fun y (H : In y []) => match H with end)).
Qed.

End Checks.

(** ** The two checks of a step *)

(** C6.  The expiration check always succeeds; it removes the expired
    positions and no other, logs for each of them, in their order, an
    [expiration] action whose [liquidity_change] is
    [delivery(spot) + collateral_value(spot)] of that position, and adds
    exactly these amounts, one after the other, to the primary balance;
    the secondary balance is left as it was. *)
Theorem expiration_settlement (step : nat) (time : Z) (spot : R)
  (status : SimulationStatus) :
  let expired := filter (fun p => is_expired p time) (positions status) in
  let credit := fun p => delivery p spot + collateral_value p spot in
  exists status' actions,
    _check_expirations step time spot status = Ok (status', actions) /\
    positions status' =
      filter (fun p => negb (is_expired p time)) (positions status) /\
    actions =
      map (fun p => {| a_step := step; a_timestamp := time; a_spot := spot;
                       a_type := expiration; a_position := Some p;
                       a_liquidity_change := Some (credit p) |}) expired /\
    primary status' =
      fold_left (fun acc p => acc + credit p) expired (primary status) /\
    secondary status' = secondary status.
Proof.
  intros expired credit. rewrite _check_expirations_eq.
  eexists. eexists. split; [reflexivity |]. cbn [positions primary secondary].
  repeat split; reflexivity.
Qed.

(** A single expiring position: the primary balance grows by its
    delivery plus its collateral value. *)
Lemma expiration_settlement_single (step : nat) (time : Z) (spot : R)
  (prim sec : R) (position : OptionPosition) :
  is_expired position time = true ->
  _check_expirations step time spot
    {| primary := prim; secondary := sec; positions := [position] |} =
  Ok ({| primary := prim + (delivery position spot
                            + collateral_value position spot);
         secondary := sec; positions := [] |},
      [expiration_action step time spot position
         (delivery position spot + collateral_value position spot)]).
Proof.
  intros H. rewrite _check_expirations_eq. cbn [positions primary secondary].
  unfold expired_now. simpl filter. rewrite H. reflexivity.
Qed.

Lemma is_liquidated_iff (p : OptionPosition) (spot : R) :
  is_liquidated p spot = true <->
  size p < 0 /\ collateral_value p spot < - delivery p spot.
Proof.
  unfold is_liquidated, is_short. rewrite andb_true_iff, !Rltb_iff. tauto.
Qed.

(** C8.  The liquidation check always succeeds; it removes the positions
    for which [is_liquidated] holds and no other, these being the short
    positions whose collateral value is below the negative of their
    delivery (never a long position); it logs each removal as a
    [liquidation] action with [liquidity_change] 0.0 and leaves the
    primary and the secondary balance unchanged. *)
Theorem liquidation_check_frame (step : nat) (time : Z) (spot : R)
  (status : SimulationStatus) :
  let liquidated := fun p => is_liquidated p spot in
  exists status' actions,
    _check_liquidations step time spot status = Ok (status', actions) /\
    positions status' = filter (fun p => negb (liquidated p))
                          (positions status) /\
    (forall p, liquidated p = true <->
               size p < 0 /\ collateral_value p spot < - delivery p spot) /\
    (forall p, is_long p = true -> liquidated p = false) /\
    actions =
      map (fun p => {| a_step := step; a_timestamp := time; a_spot := spot;
                       a_type := liquidation; a_position := Some p;
                       a_liquidity_change := Some 0 |})
        (filter liquidated (positions status)) /\
    primary status' = primary status /\
    secondary status' = secondary status.
Proof.
  intros liquidated. rewrite _check_liquidations_eq.
  eexists. eexists. split; [reflexivity |]. cbn [positions primary secondary].
  split; [reflexivity |]. split; [intros p; apply is_liquidated_iff |].
  split; [| repeat split; reflexivity].
  intros p Hlong. apply not_true_is_false. intros Hliq.
  apply is_liquidated_iff in Hliq. apply Rltb_iff in Hlong. lra.
Qed.

Lemma short_put_delivery : delivery short_put 50 = -50.
Proof.
  unfold delivery, moneyness, is_call. simpl.
  unfold Rmax. destruct (Rle_dec 0 (100 - 50)); lra.
Qed.

Lemma short_put_liquidated : is_liquidated short_put 50 = true.
Proof.
  apply is_liquidated_iff. rewrite short_put_delivery.
  unfold collateral_value. simpl. lra.
Qed.

(** ** One step of the simulation *)

Section Step.

Context {ext : Externals} {Mem : Type}.

Variable self : OptionSimulator Mem.

Lemma _get_timeline_row_spot (time : Z) (spot : R)
  (status : SimulationStatus) (chain : option OptionChain)
  (row : timeline_row) :
  _get_timeline_row time spot status chain = Ok row ->
  r_spot row = spot /\ r_timestamp row = time.
Proof.
  unfold _get_timeline_row. intros H.
  destruct (sum_results _ _ _); [| discriminate]. cbn [bind] in H.
  destruct (positions_delta _ _ _ _); [| discriminate]. cbn [bind] in H.
  injection H as <-. split; reflexivity.
Qed.

(** C7.  In a step that completes, the action log grows by the actions
    of the liquidation check, all of type [liquidation], followed by the
    actions of the expiration check, all of type [expiration], followed
    by the actions the strategy returned, in this order. *)
Theorem step_actions_in_order (st st' : run_state Mem) (step : nat)
  (time : Z) (spot : R) (signal : nat) (chain : option OptionChain) :
  simulate_step self st (step, time, spot, signal, chain) = Ok st' ->
  exists status1 liq_actions status2 exp_actions strategy mem' status3
         strategy_actions,
    _check_liquidations step time spot (rs_status st)
      = Ok (status1, liq_actions) /\
    _check_expirations step time spot status1 = Ok (status2, exp_actions) /\
    nth_error (strategies self) signal = Some strategy /\
    execute strategy (rs_mem st) step time spot status2 chain
      (rs_action_log st) = Ok (mem', status3, strategy_actions) /\
    rs_action_log st' =
      rs_action_log st ++ liq_actions ++ exp_actions ++ strategy_actions /\
    Forall (fun a => a_type a = liquidation) liq_actions /\
    Forall (fun a => a_type a = expiration) exp_actions.
Proof.
  unfold simulate_step. intros H.
  pose proof (_check_liquidations_eq step time spot (rs_status st)) as E1.
  rewrite E1 in H. cbn [bind] in H.
  match type of E1 with _ = Ok (?s, _) => set (status1 := s) in * end.
  pose proof (_check_expirations_eq step time spot status1) as E2.
  rewrite E2 in H. cbn [bind] in H.
  match type of E2 with _ = Ok (?s, _) => set (status2 := s) in * end.
  destruct (nth_error (strategies self) signal) as [strategy |] eqn:Es;
    [| discriminate].
  cbn [bind] in H.
  destruct (execute strategy _ _ _ _ _ _ _)
    as [[[mem' status3] strategy_actions] |] eqn:Ee; [| discriminate].
  cbn [bind] in H.
  destruct (_get_timeline_row _ _ _ _) as [row |]; [| discriminate].
  cbn [bind] in H. injection H as <-. cbn [rs_action_log].
  do 8 eexists.
  split; [exact E1 |]. split; [exact E2 |]. split; [reflexivity |].
  split; [exact Ee |]. split; [reflexivity |].
  split; apply Forall_forall; intros a Ha; apply in_map_iff in Ha;
    destruct Ha as (p & <- & _); reflexivity.
Qed.

Lemma simulate_step_row (st st' : run_state Mem) (t : timeline_step) :
  simulate_step self st t = Ok st' ->
  exists row,
    rs_timeline st' = rs_timeline st ++ [row] /\ r_spot row = step_spot t.
Proof.
  destruct t as [[[[step time] spot] signal] chain].
  unfold simulate_step. intros H.
  rewrite _check_liquidations_eq in H. cbn [bind] in H.
  rewrite _check_expirations_eq in H. cbn [bind] in H.
  destruct (nth_error (strategies self) signal) as [strategy |];
    [| discriminate].
  cbn [bind] in H.
  destruct (execute strategy _ _ _ _ _ _ _)
    as [[[mem' status3] strategy_actions] |]; [| discriminate].
  cbn [bind] in H.
  destruct (_get_timeline_row _ _ _ _) as [row |] eqn:Er; [| discriminate].
  cbn [bind] in H. injection H as <-. cbn [rs_timeline].
  exists row. split; [reflexivity |].
  apply _get_timeline_row_spot in Er. apply Er.
Qed.

(** A run that completes has written one timeline row per step, with
    the spot of that step. *)
Lemma simulate_loop_rows (steps : list timeline_step)
  (st st' : run_state Mem) :
  simulate_loop self st steps = Ok st' ->
  exists rows,
    rs_timeline st' = rs_timeline st ++ rows /\
    map r_spot rows = map step_spot steps.
Proof.
  revert st. induction steps as [| t steps IH]; intros st H; simpl in H.
  - injection H as <-. exists []. now rewrite app_nil_r.
  - destruct (simulate_step self st t) as [st1 |] eqn:E1; [| discriminate].
    cbn [bind] in H.
    destruct (simulate_step_row _ _ _ E1) as (row & Hrow & Hspot).
    destruct (IH _ H) as (rows & Hrows & Hspots).
    exists (row :: rows). split.
    + rewrite Hrows, Hrow, <- app_assoc. reflexivity.
    + simpl. now rewrite Hspot, Hspots.
Qed.

Lemma simulate_rows (mem : Mem) (start end_ : Z) (starting_capital : R)
  (time_step : Z) (result : SimulationResult) :
  simulate self mem start end_ starting_capital time_step = Ok result ->
  exists steps,
    _iterate_timeline self start end_ time_step = Ok steps /\
    map r_spot (timeline result) = map step_spot steps.
Proof.
  unfold simulate. intros H.
  destruct (_iterate_timeline self start end_ time_step) as [steps |];
    [| discriminate].
  cbn [bind] in H.
  destruct (simulate_loop _ _ _) as [st |] eqn:El; [| discriminate].
  cbn [bind] in H. injection H as <-. cbn [timeline].
  apply simulate_loop_rows in El. destruct El as (rows & Hrows & Hspots).
  cbn [rs_timeline app] in Hrows. rewrite Hrows.
  exists steps. split; [reflexivity | exact Hspots].
Qed.

End Step.

(** ** The timeline iterator *)

Section Timeline.

Context {Mem : Type}.

Variable self : OptionSimulator Mem.
Variables start interval : Z.

Lemma iterate_from_length (remaining i : nat) (last_spot : R)
  (last_chain : option OptionChain) :
  length (iterate_from self start interval i remaining last_spot last_chain)
  = remaining.
Proof.
  revert i last_spot last_chain.
  induction remaining as [| n IH]; intros i ls lc; cbn [iterate_from];
    [reflexivity |].
  destruct (get_timestamp_chain _ _ _) as [[s |] c]; cbn [length];
    now rewrite IH.
Qed.

(** Steps without data hand on what they were given. *)
Lemma iterate_from_carry (remaining i k : nat) (last_spot : R)
  (last_chain : option OptionChain) :
  (k < remaining)%nat ->
  (forall m, (m <= k)%nat -> no_data self start interval (i + m)) ->
  exists signal,
    nth_error
      (iterate_from self start interval i remaining last_spot last_chain) k
    = Some ((i + k)%nat, timestamp_at start interval (i + k), last_spot, signal, last_chain).
Proof.
  revert i k. induction remaining as [| n IH]; intros i k Hk Hno; [lia |].
  pose proof (Hno 0%nat (Nat.le_0_l k)) as H0.
  unfold no_data in H0. rewrite Nat.add_0_r in H0. unfold timestamp_at in H0.
  cbn [iterate_from].
  destruct (get_timestamp_chain _ _ _) as [[s |] c]; [discriminate |].
  destruct k as [| k].
  - simpl. rewrite Nat.add_0_r. eexists. reflexivity.
  - simpl nth_error.
    destruct (IH (S i) k) as (signal & E); [lia | |].
    + intros m Hm. replace (S i + m)%nat with (i + S m)%nat by lia.
      apply Hno. lia.
    + exists signal. rewrite E. now replace (S i + k)%nat with (i + S k)%nat by lia.
Qed.

(** A step with data yields the spot and the chain of its timestamp, and
    so do the steps without data that follow it. *)
Lemma iterate_from_fill (j : nat) :
  forall (remaining i k : nat) (last_spot : R)
         (last_chain : option OptionChain) (s : R) (c : OptionChain),
    (j <= k < remaining)%nat ->
    get_timestamp_chain (chain_timeline self) (timestamp_at start interval (i + j)) 0
      = (Some s, c) ->
    (forall m, (j < m <= k)%nat -> no_data self start interval (i + m)) ->
    exists signal,
      nth_error
        (iterate_from self start interval i remaining last_spot last_chain) k
      = Some ((i + k)%nat, timestamp_at start interval (i + k), s, signal, Some c).
Proof.
  induction j as [| j IH]; intros remaining i k ls lc s c Hk Hdata Hno.
  - destruct remaining as [| n]; [lia |].
    rewrite Nat.add_0_r in Hdata. unfold timestamp_at in Hdata.
    cbn [iterate_from]. rewrite Hdata.
    destruct k as [| k].
    + simpl. rewrite Nat.add_0_r. eexists. reflexivity.
    + simpl nth_error.
      destruct (iterate_from_carry n (S i) k s (Some c)) as (signal & E);
        [lia | |].
      * intros m Hm. replace (S i + m)%nat with (i + S m)%nat by lia.
        apply Hno. lia.
      * exists signal. rewrite E.
        now replace (S i + k)%nat with (i + S k)%nat by lia.
  - destruct remaining as [| n]; [lia |].
    destruct k as [| k]; [lia |].
    cbn [iterate_from].
    destruct (get_timestamp_chain (chain_timeline self)
                (start + Z.of_nat i * interval) 0) as [[s0 |] c0];
      simpl nth_error.
    + destruct (IH n (S i) k s0 (Some c0) s c) as (signal & E); [lia | | |].
      * now replace (S i + j)%nat with (i + S j)%nat by lia.
      * intros m Hm. replace (S i + m)%nat with (i + S m)%nat by lia.
        apply Hno. lia.
      * exists signal. rewrite E.
        now replace (S i + k)%nat with (i + S k)%nat by lia.
    + destruct (IH n (S i) k ls lc s c) as (signal & E); [lia | | |].
      * now replace (S i + j)%nat with (i + S j)%nat by lia.
      * intros m Hm. replace (S i + m)%nat with (i + S m)%nat by lia.
        apply Hno. lia.
      * exists signal. rewrite E.
        now replace (S i + k)%nat with (i + S k)%nat by lia.
Qed.

Lemma _iterate_timeline_length (end_ : Z) (steps : list timeline_step) :
  _iterate_timeline self start end_ interval = Ok steps ->
  num_steps start end_ interval = Ok (length steps).
Proof.
  unfold _iterate_timeline. intros H.
  destruct (num_steps start end_ interval) as [n |]; [| discriminate].
  cbn [bind] in H. injection H as <-. now rewrite iterate_from_length.
Qed.


(** Fill-forward in the iterator.  A step [i] without quote data whose most
    recent earlier step with data is [j] yields the spot and the chain
    of the timestamp of step [j], the same that step [j] yielded. *)
Lemma fill_forward_steps (end_ : Z) (steps : list timeline_step)
  (j i : nat) (s : R) (c : OptionChain) :
  _iterate_timeline self start end_ interval = Ok steps ->
  (j < i < length steps)%nat ->
  get_timestamp_chain (chain_timeline self) (timestamp_at start interval j) 0
    = (Some s, c) ->
  (forall k, (j < k <= i)%nat -> no_data self start interval k) ->
  exists signal_j signal_i,
    nth_error steps j = Some (j, timestamp_at start interval j, s, signal_j, Some c) /\
    nth_error steps i = Some (i, timestamp_at start interval i, s, signal_i, Some c).
Proof.
  intros Hsteps Hi Hdata Hno.
  pose proof (_iterate_timeline_length _ _ Hsteps) as Hn.
  unfold _iterate_timeline in Hsteps. rewrite Hn in Hsteps.
  cbn [bind] in Hsteps. injection Hsteps as Hsteps.
  destruct (iterate_from_fill j (length steps) 0 j 1 None s c)
    as (signal_j & Ej); [lia | exact Hdata | intros m Hm; lia |].
  destruct (iterate_from_fill j (length steps) 0 i 1 None s c)
    as (signal_i & Ei); [lia | exact Hdata | exact Hno |].
  rewrite Hsteps in Ej, Ei. exists signal_j, signal_i. split; assumption.
Qed.

End Timeline.

(** ** Fill-forward *)

(** C9.  In a run that completes, a step [i] whose timestamp has no
    quote data and whose most recent earlier step with data is [j] is
    given the spot and the chain of the timestamp of step [j], as step
    [j] was, and the timeline row of step [i] records that spot. *)
Theorem fill_forward {ext : Externals} {Mem : Type}
  (self : OptionSimulator Mem) (mem : Mem) (start end_ : Z)
  (starting_capital : R) (interval : Z) (result : SimulationResult)
  (j i : nat) (s : R) (c : OptionChain) :
  simulate self mem start end_ starting_capital interval = Ok result ->
  (j < i < length (timeline result))%nat ->
  get_timestamp_chain (chain_timeline self) (timestamp_at start interval j) 0
    = (Some s, c) ->
  (forall k, (j < k <= i)%nat -> no_data self start interval k) ->
  exists steps signal_j signal_i row,
    _iterate_timeline self start end_ interval = Ok steps /\
    nth_error steps j
      = Some (j, timestamp_at start interval j, s, signal_j, Some c) /\
    nth_error steps i
      = Some (i, timestamp_at start interval i, s, signal_i, Some c) /\
    nth_error (timeline result) i = Some row /\
    r_spot row = s.
Proof.
  intros Hrun Hi Hdata Hno.
  destruct (simulate_rows self mem start end_ starting_capital interval
              result Hrun) as (steps & Hsteps & Hspots).
  assert (Hlen : length (timeline result) = length steps).
  { rewrite <- (length_map r_spot), Hspots. apply length_map. }
  rewrite Hlen in Hi.
  destruct (fill_forward_steps self start interval end_ steps j i s c
              Hsteps Hi Hdata Hno) as (signal_j & signal_i & Ej & Ei).
  assert (Hrow : nth_error (map r_spot (timeline result)) i = Some s).
  { rewrite Hspots, nth_error_map, Ei. reflexivity. }
  rewrite nth_error_map in Hrow.
  destruct (nth_error (timeline result) i) as [row |] eqn:Er;
    [| discriminate].
  injection Hrow as Hrow.
  exists steps, signal_j, signal_i, row. repeat split; assumption.
Qed.

Lemma fill_forward_witness :
  exists result steps signal_j signal_i row,
    @simulate stalled unit gap_simulator tt 0 10800 1000000 3600 = Ok result /\
    _iterate_timeline gap_simulator 0 10800 3600 = Ok steps /\
    nth_error steps 0 = Some (0%nat, 0%Z, first_spot, signal_j,
                              Some first_chain) /\
    nth_error steps 1 = Some (1%nat, 3600%Z, first_spot, signal_i,
                              Some first_chain) /\
    nth_error (timeline result) 1 = Some row /\
    r_spot row = first_spot.
Proof.
  assert (Hrun : exists result,
             @simulate stalled unit gap_simulator tt 0 10800 1000000 3600
             = Ok result /\ length (timeline result) = 3%nat).
  { eexists. split; reflexivity. }
  destruct Hrun as (result & Hrun & Hlen).
  destruct (@fill_forward stalled unit gap_simulator tt 0 10800 1000000 3600
              result 0 1 first_spot first_chain Hrun)
    as (steps & signal_j & signal_i & row & H).
  - rewrite Hlen. lia.
  - reflexivity.
  - intros k Hk. assert (k = 1%nat) as -> by lia. reflexivity.
  - exists result, steps, signal_j, signal_i, row. split; [exact Hrun |].
    exact H.
Defined.


(** ** A step with a liquidation, an expiration and a trade *)

Lemma long_call_not_liquidated : is_liquidated long_call 50 = false.
Proof.
  unfold is_liquidated, is_short. rewrite (Rltb_false (size long_call) 0).
  - apply andb_false_r.
  - simpl. lra.
Qed.

Lemma busy_step_log :
  exists st',
    @simulate_step stalled unit busy_simulator busy_state
      (5%nat, 10%Z, 50, 0%nat, None) = Ok st' /\
    map a_type (rs_action_log st') = [liquidation; expiration; sell] /\
    map a_position (rs_action_log st') = [Some short_put; Some long_call; None].
Proof.
  unfold simulate_step.
  rewrite _check_liquidations_eq. cbn [bind].
  unfold liquidated_now. cbn [busy_state rs_status positions filter].
  rewrite short_put_liquidated, long_call_not_liquidated. cbn [negb map].
  rewrite _check_expirations_eq. cbn [bind].
  eexists. split; [reflexivity |]. split; reflexivity.
Qed.

Lemma step_actions_in_order_witness :
  exists st' status1 liq_actions status2 exp_actions strategy mem' status3
         strategy_actions,
    @simulate_step stalled unit busy_simulator busy_state
      (5%nat, 10%Z, 50, 0%nat, None) = Ok st' /\
    _check_liquidations 5 10 50 (rs_status busy_state)
      = Ok (status1, liq_actions) /\
    _check_expirations 5 10 50 status1 = Ok (status2, exp_actions) /\
    nth_error (strategies busy_simulator) 0 = Some strategy /\
    execute strategy (rs_mem busy_state) 5%nat 10%Z 50 status2 None
      (rs_action_log busy_state) = Ok (mem', status3, strategy_actions) /\
    rs_action_log st' =
      rs_action_log busy_state ++ liq_actions ++ exp_actions
        ++ strategy_actions /\
    Forall (fun a => a_type a = liquidation) liq_actions /\
    Forall (fun a => a_type a = expiration) exp_actions.
Proof.
  destruct busy_step_log as (st' & Hstep & _).
  exists st'.
  destruct (@step_actions_in_order stalled unit busy_simulator busy_state st'
              5%nat 10%Z 50 0%nat None Hstep)
    as (status1 & liq & status2 & exp & strategy & mem' & status3 & sa & H).
  exists status1, liq, status2, exp, strategy, mem', status3, sa.
  split; [exact Hstep | exact H].
Defined.

(** * Further properties *)

(** ** Skew lines inside the quoted range *)

Lemma sort_by_sorted {A : Type} (leb : A -> A -> bool) (l : list A) :
  StronglySorted (fun a b => leb a b = true) l -> sort_by leb l = l.
Proof.
  induction 1 as [| a l Hs IH Ha]; [reflexivity |].
  unfold sort_by in *. simpl. rewrite IH.
  destruct l as [| b l']; [reflexivity |].
  simpl. inversion Ha as [| ? ? Hab _]; subst. now rewrite Hab.
Qed.

Lemma combine_sorted (xs ys : list R) :
  StronglySorted Rlt xs ->
  StronglySorted (fun a b => node_leb a b = true) (combine xs ys).
Proof.
  intros Hs. revert ys. induction Hs as [| x xs Hs IH Hx]; intros ys.
  - constructor.
  - destruct ys as [| y ys]; [constructor |].
    simpl. constructor; [apply IH |].
    apply Forall_forall. intros [x' y'] Hin.
    apply in_combine_l in Hin. rewrite Forall_forall in Hx.
    unfold node_leb, Rleb. simpl.
    destruct (Rle_dec x x'); [reflexivity |].
    specialize (Hx _ Hin). lra.
Qed.

(** A point of the segment between two nodes is between their
    ordinates. *)
Lemma line_between (x0 y0 x1 y1 x lo hi : R) :
  x0 < x1 -> x0 <= x <= x1 -> lo <= y0 <= hi -> lo <= y1 <= hi ->
  exists v, line x0 y0 x1 y1 x = Fin v /\ lo <= v <= hi.
Proof.
  intros Hx Hin H0 H1. unfold line.
  destruct (Req_dec_T x1 x0); [lra |].
  eexists. split; [reflexivity |].
  set (t := (x - x0) / (x1 - x0)).
  assert (Ht : 0 <= t <= 1).
  { unfold t. split.
    - apply Rmult_le_pos; [lra | left; apply Rinv_0_lt_compat; lra].
    - apply Rmult_le_reg_r with (x1 - x0); [lra |].
      unfold Rdiv. rewrite Rmult_assoc, Rinv_l by lra. lra. }
  replace ((y1 - y0) / (x1 - x0) * (x - x0) + y0) with (y0 + t * (y1 - y0))
    by (unfold t; field; lra).
  split; nra.
Qed.

Lemma line_at_left (x0 y0 x1 y1 : R) :
  x0 < x1 -> line x0 y0 x1 y1 x0 = Fin y0.
Proof.
  intros Hx. unfold line. destruct (Req_dec_T x1 x0); [lra |].
  f_equal. field. lra.
Qed.

Lemma line_at_right (x0 y0 x1 y1 : R) :
  x0 < x1 -> line x0 y0 x1 y1 x1 = Fin y1.
Proof.
  intros Hx. unfold line. destruct (Req_dec_T x1 x0); [lra |].
  f_equal. field. lra.
Qed.

Lemma interp_segments_between (rest : list (R * R)) :
  forall (x0 y0 x1 y1 x xm lo hi : R),
    x0 < x1 -> StronglySorted Rlt (x1 :: map fst rest) ->
    x0 <= x -> In xm (x1 :: map fst rest) -> x <= xm ->
    lo <= y0 <= hi -> lo <= y1 <= hi ->
    Forall (fun n => lo <= snd n <= hi) rest ->
    exists v, interp_segments x x0 y0 x1 y1 rest = Fin v /\ lo <= v <= hi.
Proof.
  induction rest as [| [x2 y2] rest IH];
    intros x0 y0 x1 y1 x xm lo hi Hx Hs Hlo Hm Hhi H0 H1 Hr.
  - simpl in *. destruct Hm as [<- | []].
    apply line_between; lra.
  - simpl interp_segments. destruct (Rle_dec x x1) as [Hle | Hgt].
    + apply line_between; lra.
    + inversion Hs as [| ? ? Hs' Hall]; subst.
      inversion Hr as [| ? ? Hy2 Hr']; subst. simpl in Hy2.
      simpl map in *.
      apply (IH x1 y1 x2 y2 x xm lo hi); try assumption; try lra.
      * inversion Hall; subst. assumption.
      * destruct Hm as [<- | Hm]; [lra | exact Hm].
Qed.

Lemma interp_segments_at_node (rest : list (R * R)) :
  forall (x0 y0 x1 y1 x y : R),
    x0 < x1 -> StronglySorted Rlt (x1 :: map fst rest) ->
    In (x, y) ((x0, y0) :: (x1, y1) :: rest) ->
    interp_segments x x0 y0 x1 y1 rest = Fin y.
Proof.
  induction rest as [| [x2 y2] rest IH]; intros x0 y0 x1 y1 x y Hx Hs Hin.
  - simpl in *. destruct Hin as [E | [E | []]]; injection E as <- <-.
    + now apply line_at_left.
    + now apply line_at_right.
  - simpl interp_segments.
    inversion Hs as [| ? ? Hs' Hall]; subst. simpl map in *.
    destruct Hin as [E | [E | Hin]].
    + injection E as <- <-.
      destruct (Rle_dec x0 x1); [now apply line_at_left | lra].
    + injection E as <- <-.
      destruct (Rle_dec x1 x1); [now apply line_at_right | lra].
    + assert (Hgt : x1 < x).
      { rewrite Forall_forall in Hall. apply Hall.
        pose proof (in_map fst _ _ Hin) as Hfst. exact Hfst. }
      destruct (Rle_dec x x1); [lra |].
      apply IH; try assumption.
      * inversion Hall; subst. assumption.
      * right. exact Hin.
Qed.

Lemma combine_fst (xs ys : list R) :
  length xs = length ys -> map fst (combine xs ys) = xs.
Proof.
  revert ys. induction xs as [| x xs IH]; intros [| y ys] H;
    simpl in *; try discriminate; [reflexivity |].
  f_equal. apply IH. now injection H.
Qed.

Lemma combine_snd (xs ys : list R) :
  length xs = length ys -> map snd (combine xs ys) = ys.
Proof.
  revert ys. induction xs as [| x xs IH]; intros [| y ys] H;
    simpl in *; try discriminate; [reflexivity |].
  f_equal. apply IH. now injection H.
Qed.

(** The clamp leaves a value between its bounds as it is. *)
Lemma clamp_inactive (hi lo v : R) :
  lo <= v <= hi -> to_float (py_max (py_min (Fin hi) (Fin v)) (Fin lo)) = Ok v.
Proof.
  intros H. unfold py_min, py_max. simpl. unfold Rltb.
  destruct (Rlt_dec v hi); simpl; unfold Rltb.
  - destruct (Rlt_dec v lo); [lra | reflexivity].
  - destruct (Rlt_dec hi lo); simpl; [lra | f_equal; lra].
Qed.

(** With strictly increasing strikes the nodes are used as they come. *)
Lemma interp1d_increasing (xs ys : list R) (x : R) :
  StronglySorted Rlt xs -> length xs = length ys ->
  interp1d xs ys x =
  match combine xs ys with
  | [] => Raise ValueError
  | [(x0, y0)] => Ok (line x0 y0 x0 y0 x)
  | (x0, y0) :: (x1, y1) :: rest => Ok (interp_segments x x0 y0 x1 y1 rest)
  end.
Proof.
  intros Hs Hlen. unfold interp1d.
  rewrite Hlen, Nat.eqb_refl. cbn [negb].
  now rewrite (sort_by_sorted _ _ (combine_sorted xs ys Hs)).
Qed.

Lemma skew_line_unclamped (strike : R) (strikes ivs : list R)
  (margin v mn mx : R) :
  np_min ivs = Ok mn -> np_max ivs = Ok mx ->
  _linear_interpolation strike strikes ivs = Ok (Fin v) ->
  1 <= margin -> 0 <= mx -> mn <= v <= mx ->
  _interpolate_skew_line strike strikes ivs margin = Ok v.
Proof.
  intros Emn Emx Ev Hm Hpos Hv.
  unfold _interpolate_skew_line. rewrite Emx, Emn, Ev. cbn [bind].
  apply clamp_inactive.
  assert (0 <= mx * (margin - 1)) by (apply Rmult_le_pos; lra).
  lra.
Qed.

(** X1.  With strictly increasing strikes, a slack factor of at least
    one and volatilities that are not negative, a strike lying between
    two quoted strikes gets the plain linear interpolation of the quoted
    volatilities: the clamp does not act, and the value is between the
    smallest and the largest observed volatility. *)
Theorem skew_line_inside_range (strike a b : R) (strikes ivs : list R)
  (margin : R) :
  StronglySorted Rlt strikes -> length strikes = length ivs ->
  In a strikes -> In b strikes -> a < b -> a <= strike <= b ->
  1 <= margin -> (forall w, In w ivs -> 0 <= w) ->
  exists v mn mx,
    _linear_interpolation strike strikes ivs = Ok (Fin v) /\
    _interpolate_skew_line strike strikes ivs margin = Ok v /\
    is_min mn ivs /\ is_max mx ivs /\ mn <= v <= mx.
Proof.
  intros Hs Hlen Ha Hb Hab Hin Hm Hpos.
  assert (Hne : ivs <> []).
  { intros ->. destruct strikes; [destruct Ha | discriminate]. }
  destruct (np_max_spec ivs Hne) as (mx & Emx & Hmx).
  destruct (np_min_spec ivs Hne) as (mn & Emn & Hmn).
  assert (Hex : exists v,
             _linear_interpolation strike strikes ivs = Ok (Fin v) /\
             mn <= v <= mx).
  { unfold _linear_interpolation. rewrite interp1d_increasing by assumption.
    pose proof (combine_fst strikes ivs Hlen) as Hf.
    pose proof (combine_snd strikes ivs Hlen) as Hsn.
    assert (Hw : forall w, In w ivs -> mn <= w <= mx).
    { intros w Hw. split; [apply Hmn | apply Hmx]; exact Hw. }
    destruct (combine strikes ivs) as [| [x0 y0] [| [x1 y1] rest]].
    - simpl in Hf. subst strikes. destruct Ha.
    - simpl in Hf. subst strikes.
      destruct Ha as [<- | []]. destruct Hb as [<- | []]. lra.
    - simpl in Hf, Hsn. rewrite <- Hf in Hs, Ha, Hb. rewrite <- Hsn in Hw.
      inversion Hs as [| ? ? Hs' Hall]; subst.
      assert (H01 : x0 < x1) by (inversion Hall; assumption).
      assert (Hx0 : x0 <= strike).
      { destruct Ha as [<- | Ha]; [lra |].
        rewrite Forall_forall in Hall. specialize (Hall _ Ha). lra. }
      assert (Hxm : In b (x1 :: map fst rest)).
      { destruct Hb as [<- | Hb]; [| exact Hb].
        exfalso. destruct Ha as [<- | Ha]; [lra |].
        rewrite Forall_forall in Hall. specialize (Hall _ Ha). lra. }
      destruct (interp_segments_between rest x0 y0 x1 y1 strike b mn mx)
        as (v & Ev & Hv); try assumption; try lra.
      + apply Hw. now left.
      + apply Hw. right. now left.
      + apply Forall_forall. intros n Hn. apply Hw. right. right.
        now apply in_map.
      + exists v. rewrite Ev. auto. }
  destruct Hex as (v & Ev & Hv).
  exists v, mn, mx.
  split; [exact Ev |]. split; [| auto].
  apply (skew_line_unclamped strike strikes ivs margin v mn mx);
    try assumption.
  apply Hpos, Hmx.
Qed.

Lemma skew_line_inside_range_witness :
  exists v mn mx,
    _linear_interpolation 105 [100; 110] [2 / 5; 1 / 2] = Ok (Fin v) /\
    _interpolate_skew_line 105 [100; 110] [2 / 5; 1 / 2] (5 / 4) = Ok v /\
    is_min mn [2 / 5; 1 / 2] /\ is_max mx [2 / 5; 1 / 2] /\ mn <= v <= mx.
Proof.
  apply (skew_line_inside_range 105 100 110 [100; 110] [2 / 5; 1 / 2]
           (5 / 4)).
  - repeat constructor. lra.
  - reflexivity.
  - now left.
  - right. now left.
  - lra.
  - lra.
  - lra.
  - intros w [<- | [<- | []]]; lra.
Defined.

(** X2.  Under the same conditions, with at least two quotes, the skew
    line returns at every quoted strike the volatility observed
    there. *)
Theorem skew_line_at_quote (k v : R) (strikes ivs : list R) (margin : R) :
  StronglySorted Rlt strikes -> length strikes = length ivs ->
  (2 <= length strikes)%nat ->
  In (k, v) (combine strikes ivs) ->
  1 <= margin -> (forall w, In w ivs -> 0 <= w) ->
  _interpolate_skew_line k strikes ivs margin = Ok v.
Proof.
  intros Hs Hlen H2 Hin Hm Hpos.
  assert (Hv : In v ivs) by (eapply in_combine_r; exact Hin).
  assert (Hne : ivs <> []) by (intros ->; destruct Hv).
  destruct (np_max_spec ivs Hne) as (mx & Emx & Hmx).
  destruct (np_min_spec ivs Hne) as (mn & Emn & Hmn).
  apply (skew_line_unclamped k strikes ivs margin v mn mx);
    try assumption.
  - unfold _linear_interpolation. rewrite interp1d_increasing by assumption.
    pose proof (combine_fst strikes ivs Hlen) as Hf.
    pose proof (length_combine strikes ivs) as Hl.
    rewrite <- Hlen, Nat.min_id in Hl.
    destruct (combine strikes ivs) as [| [x0 y0] [| [x1 y1] rest]];
      simpl in Hl; try lia.
    simpl in Hf. rewrite <- Hf in Hs.
    inversion Hs as [| ? ? Hs' Hall]; subst.
    rewrite (interp_segments_at_node rest x0 y0 x1 y1 k v);
      try assumption; [reflexivity |].
    inversion Hall; assumption.
  - apply Hpos, Hmx.
  - split; [apply Hmn | apply Hmx]; exact Hv.
Qed.

Lemma skew_line_at_quote_witness :
  _interpolate_skew_line 110 [100; 110] [2 / 5; 1 / 2] (5 / 4) = Ok (1 / 2).
Proof.
  apply skew_line_at_quote.
  - repeat constructor. lra.
  - reflexivity.
  - simpl. lia.
  - right. now left.
  - lra.
  - intros w [<- | [<- | []]]; lra.
Defined.

(** X3.  A skew line without any volatility, or with a number of strikes
    that differs from the number of volatilities, cannot be evaluated:
    the call raises [ValueError]. *)
Theorem skew_line_needs_matching_quotes (strike : R) (strikes ivs : list R)
  (margin : R) :
  ivs = [] \/ length strikes <> length ivs ->
  _interpolate_skew_line strike strikes ivs margin = Raise ValueError.
Proof.
  intros [-> | Hlen]; [reflexivity |].
  unfold _interpolate_skew_line, _linear_interpolation, interp1d.
  destruct ivs as [| w ivs]; [reflexivity |]. cbn [np_max np_min bind].
  apply Nat.eqb_neq in Hlen. rewrite Hlen. reflexivity.
Qed.

Lemma skew_line_needs_matching_quotes_witness :
  _interpolate_skew_line 105 [100; 110] [2 / 5] (5 / 4) = Raise ValueError.
Proof.
  apply skew_line_needs_matching_quotes. right. simpl. lia.
Defined.

(** ** Term structure at and between the bracket tenors *)

(** X4.  At either bracket tenor the term-structure interpolation gives
    back the volatility of that tenor. *)
Theorem term_structure_at_bracket (t_lo iv_lo t_hi iv_hi : R) :
  t_lo <> t_hi -> t_lo <> 0 -> t_hi <> 0 -> 0 <= iv_lo -> 0 <= iv_hi ->
  _interpolate_term_structure t_lo [t_lo; t_hi] [iv_lo; iv_hi] = Ok iv_lo /\
  _interpolate_term_structure t_hi [t_lo; t_hi] [iv_lo; iv_hi] = Ok iv_hi.
Proof.
  intros Hne Hlo Hhi Hvlo Hvhi.
  rewrite !term_structure_eval by assumption.
  assert (Elo : interpolated_variance t_lo iv_lo t_hi iv_hi t_lo / t_lo
                = iv_lo ^ 2).
  { unfold interpolated_variance. field.
    repeat split; try assumption; intros H; apply Hne; lra. }
  assert (Ehi : interpolated_variance t_lo iv_lo t_hi iv_hi t_hi / t_hi
                = iv_hi ^ 2).
  { unfold interpolated_variance. field.
    repeat split; try assumption; intros H; apply Hne; lra. }
  rewrite Elo, Ehi. unfold math_sqrt.
  assert (0 <= iv_lo ^ 2) by (apply pow2_ge_0).
  assert (0 <= iv_hi ^ 2) by (apply pow2_ge_0).
  destruct (Rlt_dec (iv_lo ^ 2) 0); [lra |].
  destruct (Rlt_dec (iv_hi ^ 2) 0); [lra |].
  now rewrite !sqrt_pow2 by assumption.
Qed.

Lemma term_structure_at_bracket_witness :
  _interpolate_term_structure 7 [7; 30] [1 / 2; 7 / 10] = Ok (1 / 2) /\
  _interpolate_term_structure 30 [7; 30] [1 / 2; 7 / 10] = Ok (7 / 10).
Proof.
  apply term_structure_at_bracket; lra.
Defined.

(** X5.  For a target tenor between two positive bracket tenors the
    interpolated volatility lies between the two bracket
    volatilities. *)
Theorem term_structure_between (t_lo iv_lo t_hi iv_hi tau : R) :
  0 < t_lo -> t_lo < t_hi -> t_lo <= tau <= t_hi ->
  0 <= iv_lo -> 0 <= iv_hi ->
  exists iv,
    _interpolate_term_structure tau [t_lo; t_hi] [iv_lo; iv_hi] = Ok iv /\
    Rmin iv_lo iv_hi <= iv <= Rmax iv_lo iv_hi.
Proof.
  intros Hlo Hlt Htau Hvlo Hvhi.
  rewrite term_structure_eval by lra.
  set (m := Rmin iv_lo iv_hi). set (M := Rmax iv_lo iv_hi).
  assert (Hm : 0 <= m /\ m <= iv_lo /\ m <= iv_hi).
  { unfold m, Rmin. destruct (Rle_dec iv_lo iv_hi); lra. }
  assert (HM : iv_lo <= M /\ iv_hi <= M).
  { unfold M, Rmax. destruct (Rle_dec iv_lo iv_hi); lra. }
  set (w := (tau - t_lo) / (t_hi - t_lo)).
  assert (Hw : 0 <= w <= 1).
  { unfold w. split.
    - apply Rmult_le_pos; [lra | left; apply Rinv_0_lt_compat; lra].
    - apply Rmult_le_reg_r with (t_hi - t_lo); [lra |].
      unfold Rdiv. rewrite Rmult_assoc, Rinv_l by lra. lra. }
  set (alpha := (1 - w) * t_lo). set (beta := w * t_hi).
  assert (Ha : 0 <= alpha) by (unfold alpha; apply Rmult_le_pos; lra).
  assert (Hb : 0 <= beta) by (unfold beta; apply Rmult_le_pos; lra).
  assert (Etau : tau = alpha + beta) by (unfold alpha, beta, w; field; lra).
  assert (Evar : interpolated_variance t_lo iv_lo t_hi iv_hi tau
                 = alpha * iv_lo ^ 2 + beta * iv_hi ^ 2).
  { unfold interpolated_variance, alpha, beta, w. field. lra. }
  assert (Hsq : forall x y, 0 <= x -> x <= y -> x ^ 2 <= y ^ 2).
  { intros x y Hx Hxy. simpl. rewrite !Rmult_1_r.
    apply Rmult_le_compat; lra. }
  assert (Hlo2 : m ^ 2 <= iv_lo ^ 2) by (apply Hsq; lra).
  assert (Hhi2 : m ^ 2 <= iv_hi ^ 2) by (apply Hsq; lra).
  assert (Hlo3 : iv_lo ^ 2 <= M ^ 2) by (apply Hsq; lra).
  assert (Hhi3 : iv_hi ^ 2 <= M ^ 2) by (apply Hsq; lra).
  set (q := interpolated_variance t_lo iv_lo t_hi iv_hi tau / tau).
  assert (Hq : m ^ 2 <= q <= M ^ 2).
  { assert (Hqt : q * tau = alpha * iv_lo ^ 2 + beta * iv_hi ^ 2).
    { unfold q. rewrite Evar. field. lra. }
    assert (H1 : alpha * m ^ 2 <= alpha * iv_lo ^ 2)
      by (apply Rmult_le_compat_l; assumption).
    assert (H2 : beta * m ^ 2 <= beta * iv_hi ^ 2)
      by (apply Rmult_le_compat_l; assumption).
    assert (H3 : alpha * iv_lo ^ 2 <= alpha * M ^ 2)
      by (apply Rmult_le_compat_l; assumption).
    assert (H4 : beta * iv_hi ^ 2 <= beta * M ^ 2)
      by (apply Rmult_le_compat_l; assumption).
    split; apply Rmult_le_reg_r with tau; try lra.
    - rewrite Hqt. rewrite Etau at 1. lra.
    - rewrite Hqt. rewrite Etau at 1. lra. }
  assert (Hm2 : 0 <= m ^ 2) by apply pow2_ge_0.
  unfold math_sqrt. destruct (Rlt_dec q 0); [lra |].
  exists (sqrt q). split; [reflexivity |].
  split.
  - rewrite <- (sqrt_pow2 m) by lra. apply sqrt_le_1_alt. lra.
  - rewrite <- (sqrt_pow2 M) by lra. apply sqrt_le_1_alt. lra.
Qed.

Lemma term_structure_between_witness :
  exists iv,
    _interpolate_term_structure 14 [7; 30] [1 / 2; 7 / 10] = Ok iv /\
    Rmin (1 / 2) (7 / 10) <= iv <= Rmax (1 / 2) (7 / 10).
Proof.
  apply term_structure_between; lra.
Defined.

(** ** Sparse price tables *)

Lemma _interpolate_chain_default {ext : Externals} (self : OptionChain)
  (price_chain : list price_row) (strike : R) (exp : Z)
  (option_type : option_type) :
  (length (exp_multiple price_chain) < 2)%nat ->
  _interpolate_chain self price_chain strike exp option_type
  = Ok (oc_default_iv self).
Proof.
  intros Hfew. unfold _interpolate_chain, _get_strike_iv_interpolator.
  destruct (length price_chain =? 0)%nat; [reflexivity |].
  apply Nat.leb_gt in Hfew. rewrite Hfew. reflexivity.
Qed.

(** X6.  When fewer than two maturities of the price table are quoted on
    at least two rows, the empty table included, every strike is priced
    at the configured default volatility, whatever the quotes say, and
    the strike is handed back unchanged. *)
Theorem sparse_table_prices_at_default_iv {ext : Externals}
  (self : OptionChain) (strike days_to_maturity : R)
  (option_type : option_type) (side : price_side) :
  (length (exp_multiple (_get_price_chain self option_type side)) < 2)%nat ->
  get_price_by_strike self strike days_to_maturity option_type side =
  (price <- black_scholes option_type (oc_spot self) strike
              (years_of_seconds (seconds_of_days days_to_maturity))
              (oc_rf self) (oc_default_iv self) ;;
   Ok (price, strike, oc_default_iv self)).
Proof.
  intros Hfew. unfold get_price_by_strike.
  now rewrite _interpolate_chain_default by assumption.
Qed.

Lemma sparse_table_prices_at_default_iv_witness :
  @get_price_by_strike stalled put_only_chain 95 7 call ask
  = Ok (3, 95, 1).
Proof.
  apply (@sparse_table_prices_at_default_iv stalled put_only_chain 95 7
           call ask).
  simpl. lia.
Defined.

(** ** The bracket that is selected *)

Lemma insert_by_In_iff {A : Type} (leb : A -> A -> bool) (a x : A)
  (l : list A) :
  In x (insert_by leb a l) <-> x = a \/ In x l.
Proof.
  split; [apply insert_by_In |].
  induction l as [| b l IH]; simpl.
  - intros [-> | []]. now left.
  - destruct (leb a b); simpl.
    + intros [-> | [-> | H]]; auto.
    + intros [-> | [-> | H]]; auto.
Qed.

Lemma sort_by_In {A : Type} (leb : A -> A -> bool) (x : A) (l : list A) :
  In x (sort_by leb l) <-> In x l.
Proof.
  unfold sort_by. induction l as [| a l IH]; simpl; [tauto |].
  rewrite insert_by_In_iff, IH. split; intros [H | H]; auto.
Qed.

Lemma insert_by_Zleb_strict (a : Z) (l : list Z) :
  StronglySorted Z.lt l -> ~ In a l ->
  StronglySorted Z.lt (insert_by Z.leb a l).
Proof.
  induction 1 as [| b l Hs IH Hb]; simpl; intros Hnot.
  - constructor; constructor.
  - destruct (a <=? b)%Z eqn:E.
    + apply Z.leb_le in E.
      assert (a < b)%Z by (assert (b <> a) by tauto; lia).
      constructor.
      * now constructor.
      * constructor; [assumption |].
        eapply Forall_impl; [| exact Hb]. intros c Hc. simpl in Hc. lia.
    + apply Z.leb_gt in E. constructor.
      * apply IH. tauto.
      * apply Forall_forall. intros x Hx.
        destruct (insert_by_In _ _ _ _ Hx) as [-> | Hin]; [lia |].
        rewrite Forall_forall in Hb. now apply Hb.
Qed.

Lemma sort_by_Zleb_strict (l : list Z) :
  NoDup l -> StronglySorted Z.lt (sort_by Z.leb l).
Proof.
  unfold sort_by. induction 1 as [| a l Hnot Hnd IH]; simpl.
  - constructor.
  - apply insert_by_Zleb_strict; [exact IH |].
    intros Hin. apply Hnot. now apply (sort_by_In Z.leb).
Qed.

(** The maturities among which the bracket is chosen are strictly
    increasing. *)
Lemma exp_multiple_strict (price_chain : list price_row) :
  StronglySorted Z.lt (exp_multiple price_chain).
Proof.
  unfold exp_multiple. apply sort_by_Zleb_strict, NoDup_nodup.
Qed.

Lemma count_occ_filter_length (l : list price_row) (e : Z) :
  length (filter (fun r => (c_exp r =? e)%Z) l)
  = count_occ Z.eq_dec (map c_exp l) e.
Proof.
  induction l as [| r l IH]; simpl; [reflexivity |].
  destruct (Z.eq_dec (c_exp r) e) as [E | E].
  - apply Z.eqb_eq in E. rewrite E. simpl. now rewrite IH.
  - apply Z.eqb_neq in E. now rewrite E.
Qed.

(** Each of these maturities is quoted on at least two rows. *)
Lemma exp_multiple_quoted (price_chain : list price_row) (e : Z) :
  In e (exp_multiple price_chain) ->
  (2 <= length (maturity_rows price_chain e))%nat.
Proof.
  unfold exp_multiple, maturity_rows. intros Hin.
  apply sort_by_In, nodup_In, filter_In in Hin. destruct Hin as [_ Hc].
  apply Nat.leb_le in Hc.
  now rewrite sort_by_length, count_occ_filter_length.
Qed.

Lemma np_index_inv {A : Type} (a : list A) (i : Z) (v : A) :
  np_index a i = Ok v ->
  exists n, nth_error a n = Some v /\
            Z.of_nat n = (if (i <? 0)%Z then Z.of_nat (length a) + i
                          else i)%Z.
Proof.
  unfold np_index. intros H.
  set (j := if (i <? 0)%Z then (Z.of_nat (length a) + i)%Z else i) in *.
  destruct ((0 <=? j)%Z && (j <? Z.of_nat (length a))%Z)%bool eqn:E;
    [| discriminate].
  apply andb_true_iff in E. destruct E as [E1 E2].
  apply Z.leb_le in E1.
  destruct (nth_error a (Z.to_nat j)) as [w |] eqn:En; [| discriminate].
  injection H as <-. exists (Z.to_nat j). split; [exact En | lia].
Qed.

Lemma np_index_ok_iff {A : Type} (a : list A) (i : Z) :
  is_ok (np_index a i) = true <->
  (- Z.of_nat (length a) <= i < Z.of_nat (length a))%Z.
Proof.
  unfold np_index.
  set (j := if (i <? 0)%Z then (Z.of_nat (length a) + i)%Z else i).
  assert (Hj : (0 <= j < Z.of_nat (length a))%Z <->
               (- Z.of_nat (length a) <= i < Z.of_nat (length a))%Z).
  { unfold j. destruct (i <? 0)%Z eqn:E.
    - apply Z.ltb_lt in E. lia.
    - apply Z.ltb_ge in E. lia. }
  destruct ((0 <=? j)%Z && (j <? Z.of_nat (length a))%Z)%bool eqn:E.
  - apply andb_true_iff in E. destruct E as [E1 E2].
    apply Z.leb_le in E1. apply Z.ltb_lt in E2.
    destruct (nth_error a (Z.to_nat j)) eqn:En.
    + simpl. split; [intros _; apply Hj; lia | reflexivity].
    + exfalso. apply nth_error_None in En. lia.
  - simpl. split; [discriminate |]. intros H. apply Hj in H.
    apply andb_false_iff in E. destruct E as [E | E].
    + apply Z.leb_gt in E. lia.
    + apply Z.ltb_ge in E. lia.
Qed.

Lemma sorted_nth_lt (l : list Z) :
  StronglySorted Z.lt l ->
  forall n m a b, nth_error l n = Some a -> nth_error l m = Some b ->
                  (n < m)%nat -> (a < b)%Z.
Proof.
  induction 1 as [| x l Hs IH Hx]; intros n m a b Hn Hm Hlt.
  - destruct n; discriminate.
  - destruct m as [| m]; [lia |]. simpl in Hm.
    destruct n as [| n].
    + simpl in Hn. injection Hn as <-.
      rewrite Forall_forall in Hx. apply Hx. eapply nth_error_In, Hm.
    + simpl in Hn. apply (IH n m); auto. lia.
Qed.

Lemma filter_sorted (f : Z -> bool) (l : list Z) :
  StronglySorted Z.lt l -> StronglySorted Z.lt (filter f l).
Proof.
  induction 1 as [| x l Hs IH Hx]; simpl; [constructor |].
  destruct (f x); [| exact IH].
  constructor; [exact IH |].
  apply Forall_forall. intros y Hy. apply filter_In in Hy.
  rewrite Forall_forall in Hx. apply Hx, Hy.
Qed.

(** X7.  Whenever a bracket is selected from a price table, its lower
    maturity is strictly before its upper maturity, and each of the two
    is quoted on at least two rows of the table. *)
Theorem bracket_is_ordered_and_quoted (price_chain : list price_row)
  (exp lo hi : Z) :
  select_bracket (exp_multiple price_chain) exp = Ok (lo, hi) ->
  (lo < hi)%Z /\
  (2 <= length (maturity_rows price_chain lo))%nat /\
  (2 <= length (maturity_rows price_chain hi))%nat.
Proof.
  intros Hsel.
  pose proof (exp_multiple_strict price_chain) as Hs.
  set (l := exp_multiple price_chain) in *.
  pose proof (filter_sorted (fun e => (e <? exp)%Z) l Hs) as Hse.
  pose proof (filter_sorted (fun e => (exp <=? e)%Z) l Hs) as Hsl.
  unfold select_bracket in Hsel.
  fold (earlier_exps l exp) in Hse. fold (later_exps l exp) in Hsl.
  assert (Hin : In lo l /\ In hi l /\ (lo < hi)%Z).
  { destruct (length (earlier_exps l exp) =? 0)%nat.
    - destruct (np_index (later_exps l exp) 0) as [a |] eqn:Ea;
        [| discriminate].
      destruct (np_index (later_exps l exp) 1) as [b |] eqn:Eb;
        [| discriminate].
      cbn [bind] in Hsel. injection Hsel as <- <-.
      apply np_index_inv in Ea, Eb.
      destruct Ea as (n & Hn & En). destruct Eb as (m & Hm & Em).
      simpl in En, Em.
      split; [| split].
      + apply nth_error_In in Hn. apply filter_In in Hn. apply Hn.
      + apply nth_error_In in Hm. apply filter_In in Hm. apply Hm.
      + apply (sorted_nth_lt _ Hsl n m); auto. lia.
    - destruct (length (later_exps l exp) =? 0)%nat.
      + destruct (np_index (earlier_exps l exp) (-2)) as [a |] eqn:Ea;
          [| discriminate].
        destruct (np_index (earlier_exps l exp) (-1)) as [b |] eqn:Eb;
          [| discriminate].
        cbn [bind] in Hsel. injection Hsel as <- <-.
        apply np_index_inv in Ea, Eb.
        destruct Ea as (n & Hn & En). destruct Eb as (m & Hm & Em).
        simpl in En, Em.
        split; [| split].
        * apply nth_error_In in Hn. apply filter_In in Hn. apply Hn.
        * apply nth_error_In in Hm. apply filter_In in Hm. apply Hm.
        * apply (sorted_nth_lt _ Hse n m); auto. lia.
      + destruct (np_index (earlier_exps l exp) (-1)) as [a |] eqn:Ea;
          [| discriminate].
        destruct (np_index (later_exps l exp) 1) as [b |] eqn:Eb;
          [| discriminate].
        cbn [bind] in Hsel. injection Hsel as <- <-.
        apply np_index_inv in Ea, Eb.
        destruct Ea as (n & Hn & _). destruct Eb as (m & Hm & _).
        apply nth_error_In in Hn, Hm.
        apply filter_In in Hn, Hm.
        destruct Hn as [Hn1 Hn2]. destruct Hm as [Hm1 Hm2].
        apply Z.ltb_lt in Hn2. apply Z.leb_le in Hm2.
        split; [exact Hn1 |]. split; [exact Hm1 | lia]. }
  destruct Hin as (Hlo & Hhi & Hlt).
  split; [exact Hlt |]. split; apply exp_multiple_quoted; assumption.
Qed.

Lemma bracket_is_ordered_and_quoted_witness :
  (week < month)%Z /\
  (2 <= length (maturity_rows three_maturities week))%nat /\
  (2 <= length (maturity_rows three_maturities month))%nat.
Proof.
  apply (bracket_is_ordered_and_quoted three_maturities 864000 week month).
  reflexivity.
Defined.

Lemma np_index_ok_b {A : Type} (a : list A) (i : Z) :
  is_ok (np_index a i) =
  ((- Z.of_nat (length a) <=? i)%Z && (i <? Z.of_nat (length a))%Z)%bool.
Proof.
  pose proof (np_index_ok_iff a i) as H.
  destruct (is_ok (np_index a i));
    destruct ((- Z.of_nat (length a) <=? i)%Z
              && (i <? Z.of_nat (length a))%Z)%bool eqn:E; try reflexivity.
  - apply andb_false_iff in E. assert (H' := proj1 H eq_refl).
    destruct E as [E | E]; [apply Z.leb_gt in E | apply Z.ltb_ge in E]; lia.
  - apply andb_true_iff in E. destruct E as [E1 E2].
    apply Z.leb_le in E1. apply Z.ltb_lt in E2.
    apply (proj2 H). lia.
Qed.

Lemma is_ok_pair {A B : Type} (a : result A) (b : result B) :
  is_ok (x <- a ;; y <- b ;; Ok (x, y)) = (is_ok a && is_ok b)%bool.
Proof. destruct a, b; reflexivity. Qed.

Lemma earlier_later_length (l : list Z) (exp : Z) :
  (length (earlier_exps l exp) + length (later_exps l exp) = length l)%nat.
Proof.
  unfold earlier_exps, later_exps. induction l as [| e l IH]; simpl;
    [reflexivity |].
  destruct (e <? exp)%Z eqn:E1; destruct (exp <=? e)%Z eqn:E2; simpl;
    try lia;
    try (apply Z.ltb_lt in E1); try (apply Z.ltb_ge in E1);
    try (apply Z.leb_le in E2); try (apply Z.leb_gt in E2); lia.
Qed.

Lemma select_bracket_fails_iff (l : list Z) (exp : Z) :
  (2 <= length l)%nat ->
  is_ok (select_bracket l exp) = false <->
  earlier_exps l exp <> [] /\ length (later_exps l exp) = 1%nat.
Proof.
  intros H2. pose proof (earlier_later_length l exp) as Hsum.
  unfold select_bracket.
  destruct (earlier_exps l exp) as [| e0 earlier] eqn:Ee.
  - simpl length in *. cbn [Nat.eqb]. rewrite is_ok_pair, !np_index_ok_b.
    split; [| intros [H _]; congruence].
    intros H. exfalso. apply andb_false_iff in H.
    destruct H as [H | H]; apply andb_false_iff in H; destruct H as [H | H];
      try (apply Z.leb_gt in H); try (apply Z.ltb_ge in H); lia.
  - rewrite <- Ee in *.
    assert (Hpos : (0 < length (earlier_exps l exp))%nat)
      by (rewrite Ee; simpl; lia).
    replace (length (earlier_exps l exp) =? 0)%nat with false
      by (symmetry; apply Nat.eqb_neq; lia).
    destruct (length (later_exps l exp) =? 0)%nat eqn:El.
    + apply Nat.eqb_eq in El.
      rewrite is_ok_pair, !np_index_ok_b.
      split; [| intros [_ H]; lia].
      intros H. exfalso. apply andb_false_iff in H.
      destruct H as [H | H]; apply andb_false_iff in H; destruct H as [H | H];
        try (apply Z.leb_gt in H); try (apply Z.ltb_ge in H); lia.
    + apply Nat.eqb_neq in El.
      rewrite is_ok_pair, !np_index_ok_b. split.
      * intros H. split; [rewrite Ee; discriminate |].
        apply andb_false_iff in H.
        destruct H as [H | H]; apply andb_false_iff in H;
          destruct H as [H | H];
          try (apply Z.leb_gt in H); try (apply Z.ltb_ge in H); lia.
      * intros [_ H]. apply andb_false_iff. right.
        apply andb_false_iff. right. apply Z.ltb_ge. lia.
Qed.

(** X8.  Building the interpolator fails in one situation only: at least
    two maturities are quoted on at least two rows, at least one of them
    is before the target expiration and exactly one is at or after
    it. *)
Theorem interpolator_fails_only_with_single_later {ext : Externals}
  (self : OptionChain) (price_chain : list price_row) (exp : Z)
  (option_type : option_type) :
  is_ok (_get_strike_iv_interpolator self price_chain exp option_type)
  = false <->
  (2 <= length (exp_multiple price_chain))%nat /\
  earlier_exps (exp_multiple price_chain) exp <> [] /\
  length (later_exps (exp_multiple price_chain) exp) = 1%nat.
Proof.
  unfold _get_strike_iv_interpolator.
  destruct (length price_chain =? 0)%nat eqn:E0.
  - apply Nat.eqb_eq, length_zero_iff_nil in E0. subst price_chain.
    simpl. split; [discriminate | intros [H _]; lia].
  - destruct (2 <=? length (exp_multiple price_chain))%nat eqn:E2.
    + apply Nat.leb_le in E2.
      rewrite <- (select_bracket_fails_iff _ exp E2).
      destruct (select_bracket (exp_multiple price_chain) exp)
        as [[lo hi] |]; simpl; tauto.
    + apply Nat.leb_gt in E2. simpl.
      split; [discriminate | intros [H _]; lia].
Qed.

(** ** Pricing by moneyness *)

(** X9.  Pricing by moneyness is pricing by strike at
    [spot / (1 + moneyness)] for a call and [spot / (1 - moneyness)] for
    a put, whenever that denominator is not zero. *)
Theorem price_by_moneyness_is_price_by_strike {ext : Externals}
  (self : OptionChain) (moneyness days_to_maturity : R)
  (option_type : option_type) (side : price_side) :
  let denominator := match option_type with
                     | call => 1 + moneyness
                     | put => 1 - moneyness
                     end in
  denominator <> 0 ->
  get_price_by_moneyness self moneyness days_to_maturity option_type side =
  get_price_by_strike self (oc_spot self / denominator) days_to_maturity
    option_type side.
Proof.
  intros denominator Hd.
  unfold get_price_by_moneyness, get_price_by_strike, denominator in *.
  destruct option_type; destruct (Req_dec_T _ 0); try contradiction;
    reflexivity.
Qed.

Lemma price_by_moneyness_is_price_by_strike_witness :
  @get_price_by_moneyness stalled put_only_chain (1 / 10) 7 call ask =
  @get_price_by_strike stalled put_only_chain
    (oc_spot put_only_chain / (1 + 1 / 10)) 7 call ask.
Proof.
  apply (@price_by_moneyness_is_price_by_strike stalled put_only_chain
           (1 / 10) 7 call ask).
  simpl. lra.
Defined.

(** ** The chain of a timestamp *)

(** X10.  [get_timestamp_chain] reports no spot exactly when the quote
    table has no row at the timestamp; otherwise the spot it reports is
    the spot of the chain it returns, and that chain holds rows of this
    timestamp only. *)
Theorem timestamp_chain_spot (self : OptionChainTimeline) (timestamp : Z)
  (risk_free_rate : R) :
  let '(spot, chain) := get_timestamp_chain self timestamp risk_free_rate in
  (spot = None <->
   forall q, In q (ct_chain self) -> q_timestamp q <> timestamp) /\
  (forall s, spot = Some s -> s = oc_spot chain) /\
  Forall (fun q => q_timestamp q = timestamp) (oc_chain chain) /\
  oc_default_iv chain = ct_default_iv self /\
  oc_iv_margin chain = ct_iv_margin self.
Proof.
  unfold get_timestamp_chain.
  set (rows := filter (fun q => (q_timestamp q =? timestamp)%Z)
                 (ct_chain self)).
  split; [| split; [| split; [| split; reflexivity]]].
  - destruct rows as [| q0 rows'] eqn:Er; simpl.
    + split; [intros _ | reflexivity].
      intros q Hq Hts.
      assert (Hin : In q rows).
      { apply filter_In. split; [exact Hq | now apply Z.eqb_eq]. }
      rewrite Er in Hin. destruct Hin.
    + split; [discriminate |]. intros Hnone. exfalso.
      assert (Hin : In q0 rows) by (rewrite Er; now left).
      apply filter_In in Hin. destruct Hin as [Hq Hts].
      apply Z.eqb_eq in Hts. exact (Hnone q0 Hq Hts).
  - intros s Hs. destruct (0 <? length rows)%nat; [| discriminate].
    injection Hs as <-. cbn [oc_spot new_OptionChain]. f_equal.
    apply map_ext. intros q. apply Rmult_comm.
  - cbn [oc_chain new_OptionChain]. apply Forall_forall. intros q Hq.
    apply filter_In in Hq. now apply Z.eqb_eq.
Qed.

(** ** Positions *)

Lemma Rmax_0_nonneg (m : R) : 0 <= Rmax 0 m.
Proof. apply Rmax_l. Qed.

Lemma Rmax_0_zero_iff (m : R) : Rmax 0 m = 0 <-> m <= 0.
Proof.
  unfold Rmax. destruct (Rle_dec 0 m); split; intros; lra.
Qed.

(** X11.  The delivery of a position has the sign of its size, and it is
    zero exactly when the position is not in the money or has no
    size. *)
Theorem delivery_sign (p : OptionPosition) (spot : R) :
  0 <= delivery p spot * size p /\
  (delivery p spot = 0 <-> moneyness p spot <= 0 \/ size p = 0).
Proof.
  unfold delivery. pose proof (Rmax_0_nonneg (moneyness p spot)) as Hm.
  split.
  - rewrite Rmult_assoc. apply Rmult_le_pos; [exact Hm |].
    apply Rle_0_sqr.
  - rewrite <- Rmax_0_zero_iff. split.
    + intros H. apply Rmult_integral in H. exact H.
    + intros [-> | ->]; ring.
Qed.

(** X12.  A call and a put of the same strike and size deliver, the one
    less the other, the spot less the strike for each unit of size. *)
Theorem delivery_parity (c p : OptionPosition) (spot : R) :
  type c = call -> type p = put ->
  strike c = strike p -> size c = size p ->
  delivery c spot - delivery p spot = (spot - strike c) * size c.
Proof.
  intros Hc Hp Hk Hs. unfold delivery, moneyness, is_call.
  rewrite Hc, Hp, <- Hk, <- Hs. simpl.
  unfold Rmax.
  destruct (Rle_dec 0 (spot - strike c));
    destruct (Rle_dec 0 (strike c - spot)); try ring; try lra.
  assert (E : spot - strike c = 0) by lra.
  replace (strike c - spot) with 0 by lra. rewrite E. ring.
Qed.

(** X13.  A short call whose secondary collateral covers its size, and a
    short put whose primary collateral covers its strike times its size,
    are never liquidated, whatever the spot, as long as spot, strike and
    the other collateral are not negative. *)
Theorem covered_short_never_liquidated (p : OptionPosition) (spot : R) :
  0 <= spot -> 0 <= strike p -> size p <= 0 ->
  match type p with
  | call => - size p <= collateral_secondary p /\ 0 <= collateral_primary p
  | put => strike p * - size p <= collateral_primary p
           /\ 0 <= collateral_secondary p
  end ->
  is_liquidated p spot = false.
Proof.
  intros Hspot Hk Hsz Hcov. unfold is_liquidated.
  rewrite Rltb_false; [reflexivity |].
  unfold collateral_value, delivery, moneyness, is_call.
  destruct (type p); simpl; unfold Rmax.
  - destruct Hcov as [Hc1 Hc2].
    assert (- size p * spot <= collateral_secondary p * spot)
      by (apply Rmult_le_compat_r; lra).
    destruct (Rle_dec 0 (spot - strike p)); nra.
  - destruct Hcov as [Hc1 Hc2].
    assert (0 <= collateral_secondary p * spot)
      by (apply Rmult_le_pos; lra).
    destruct (Rle_dec 0 (strike p - spot)); nra.
Qed.

Lemma delivery_parity_witness :
  delivery forward_call 130 - delivery forward_put 130
  = (130 - strike forward_call) * size forward_call.
Proof.
  apply (delivery_parity forward_call forward_put 130); reflexivity.
Defined.

Lemma covered_short_never_liquidated_witness :
  is_liquidated covered_call 1000 = false.
Proof.
  apply (covered_short_never_liquidated covered_call 1000); simpl; lra.
Defined.

(** With an inversion routine that fails on every quote, a price table
    on which at least two maturities are quoted twice gives no
    volatility: either the bracket cannot be selected, or both skew
    lines are empty. *)
Lemma _interpolate_chain_all_fail {ext : Externals} (self : OptionChain)
  (price_chain : list price_row) (strike : R) (exp : Z)
  (option_type : option_type) :
  (forall row, inverts (oc_spot self) option_type row = false) ->
  (2 <= length (exp_multiple price_chain))%nat ->
  is_ok (_interpolate_chain self price_chain strike exp option_type) = false.
Proof.
  intros Hfail Hmany. unfold _interpolate_chain, _get_strike_iv_interpolator.
  destruct price_chain as [| row rows]; [simpl in Hmany; lia |].
  cbn [length Nat.eqb]. apply Nat.leb_le in Hmany. rewrite Hmany.
  destruct (select_bracket _ exp) as [[exp_lo exp_hi] | e]; [| reflexivity].
  cbn [bind]. unfold bracket_iv.
  rewrite (invert_quotes_all_fail (oc_spot self) option_type
             (maturity_rows (row :: rows) exp_lo))
    by (apply Forall_forall; intros r _; apply Hfail).
  reflexivity.
Qed.

Lemma listed_calls_spot : oc_spot listed_calls = 100.
Proof. unfold listed_calls, new_OptionChain, mean. simpl. field. Qed.

Lemma listed_calls_price_chain :
  map c_exp (_get_price_chain listed_calls call mark)
  = [week; week; fortnight; fortnight].
Proof.
  unfold _get_price_chain, intrinsic_value. rewrite listed_calls_spot.
  cbn [listed_calls new_OptionChain oc_chain filter call_quote q_type
       option_type_eqb map side_price q_mark_price q_strike q_spot_ratio
       q_expiration q_timestamp q_iv_ratio c_p c_K c_exp].
  rewrite !(proj2 (Rltb_iff _ _)) by lra.
  reflexivity.
Qed.

(** On the listed calls, with an inversion that fails on every quote,
    pricing a strike for seven days raises. *)
Lemma listed_calls_unpriced :
  is_ok (@get_price_by_strike stalled listed_calls 100
           (IZR (week - 0) / day) call mark) = false.
Proof.
  unfold get_price_by_strike.
  assert (H : is_ok (@_interpolate_chain stalled listed_calls
                       (_get_price_chain listed_calls call mark) 100
                       (seconds_of_days (IZR (week - 0) / day)) call)
              = false).
  { apply _interpolate_chain_all_fail.
    - intros row. reflexivity.
    - unfold exp_multiple. rewrite listed_calls_price_chain.
      vm_compute. lia. }
  destruct (_interpolate_chain _ _ _ _ _); [discriminate | reflexivity].
Qed.

(** X14.  More than an hour before maturity, a position valued against a
    chain whose pricing raises gets exactly what it gets without a
    chain: its size times the closed-form price at its own starting
    volatility, and as delta its size times the closed-form delta at
    that volatility.  The failure of the chain does not get through. *)
Theorem valuation_survives_chain_failure {ext : Externals}
  (p : OptionPosition) (spot : R) (time : Z) (chain : OptionChain) :
  (hour < maturity p - time)%Z ->
  is_ok (get_price_by_strike chain (strike p)
           (IZR (maturity p - time) / day) (type p) mark) = false ->
  valuation p spot time (Some chain)
  = own_valuation p spot (maturity p - time) /\
  delta p spot time (Some chain)
  = own_delta p spot (maturity p - time) (iv_start p) /\
  valuation p spot time (Some chain) = valuation p spot time None /\
  delta p spot time (Some chain) = delta p spot time None.
Proof.
  intros Hleft Hfail. unfold valuation, delta.
  apply Z.leb_gt in Hleft. rewrite Hleft.
  destruct (get_price_by_strike chain (strike p) _ (type p) mark)
    as [[[price k] iv] |]; [discriminate |].
  cbn [bind]. repeat split; reflexivity.
Qed.

(** The listed calls, with an inversion that fails on every quote: the
    chain raises, and the long call of size 2 is valued at twice the
    closed-form price. *)
Lemma valuation_survives_chain_failure_witness :
  @valuation stalled forward_call 130 0 (Some listed_calls) = Ok (2 * 3) /\
  @delta stalled forward_call 130 0 (Some listed_calls) = Ok (2 * 0) /\
  @valuation stalled forward_call 130 0 (Some listed_calls)
  = @valuation stalled forward_call 130 0 None /\
  @delta stalled forward_call 130 0 (Some listed_calls)
  = @delta stalled forward_call 130 0 None.
Proof.
  apply (@valuation_survives_chain_failure stalled forward_call 130 0
           listed_calls).
  - reflexivity.
  - exact listed_calls_unpriced.
Defined.

(** ** Status totals and the timeline row *)

Lemma fold_Rplus_acc (l : list R) (a : R) :
  fold_left Rplus l a = a + fold_left Rplus l 0.
Proof.
  revert a. induction l as [| x l IH]; intros a; simpl; [ring |].
  rewrite (IH (a + x)), (IH (0 + x)). ring.
Qed.

Lemma py_sum_collateral_value (l : list OptionPosition) (spot : R) :
  py_sum (map (fun p => collateral_value p spot) l) =
  py_sum (map collateral_primary l) + py_sum (map collateral_secondary l) * spot.
Proof.
  unfold py_sum. induction l as [| p l IH]; simpl; [ring |].
  rewrite (fold_Rplus_acc _ (0 + collateral_value p spot)),
    (fold_Rplus_acc _ (0 + collateral_primary p)),
    (fold_Rplus_acc _ (0 + collateral_secondary p)), IH.
  unfold collateral_value. ring.
Qed.

(** X15.  In a run without a chain, the total value and the total delta
    that the timeline row records are the ones the status itself
    computes. *)
Theorem timeline_row_agrees_with_status {ext : Externals} (time : Z)
  (spot : R) (status : SimulationStatus) (row : timeline_row) :
  _get_timeline_row time spot status None = Ok row ->
  total_value status spot time = Ok (r_total_value row) /\
  total_delta status spot time None = Ok (r_total_delta row).
Proof.
  unfold _get_timeline_row, total_delta, total_value. intros H.
  destruct (sum_results (fun p => valuation p spot time None) _ 0)
    as [pv |] eqn:Ev; [| discriminate].
  cbn [bind] in H.
  destruct (positions_delta status spot time None) as [pd |];
    [| discriminate].
  cbn [bind] in H. injection H as <-.
  cbn [r_total_delta r_total_value bind].
  split; [| reflexivity]. f_equal.
  rewrite py_sum_collateral_value.
  unfold status_collateral_primary, status_collateral_secondary. ring.
Qed.

Lemma timeline_row_agrees_with_status_witness :
  exists row,
    @_get_timeline_row stalled 0 130
      {| primary := 1000; secondary := 2;
         positions := [forward_call; covered_call] |} None = Ok row /\
    @total_value stalled
      {| primary := 1000; secondary := 2;
         positions := [forward_call; covered_call] |} 130 0
      = Ok (r_total_value row) /\
    @total_delta stalled
      {| primary := 1000; secondary := 2;
         positions := [forward_call; covered_call] |} 130 0 None
      = Ok (r_total_delta row).
Proof.
  eexists. split; [reflexivity |].
  apply (@timeline_row_agrees_with_status stalled 0 130).
  reflexivity.
Defined.

(** ** The two checks, once more *)

Lemma filter_filter {A : Type} (f g : A -> bool) (l : list A) :
  filter f (filter g l) = filter (fun x => g x && f x)%bool l.
Proof.
  induction l as [| a l IH]; simpl; [reflexivity |].
  destruct (g a); simpl; [destruct (f a) |]; now rewrite IH.
Qed.

Lemma filter_ext_in_eq {A : Type} (f g : A -> bool) (l : list A) :
  (forall a, In a l -> f a = g a) -> filter f l = filter g l.
Proof.
  induction l as [| a l IH]; intros H; simpl; [reflexivity |].
  rewrite (H a (or_introl eq_refl)), IH; [reflexivity |].
  intros b Hb. apply H. now right.
Qed.

(** X16.  After the liquidation check no open position is liquidated at
    that spot, and running the check again, at any step, removes nothing
    and logs nothing. *)
Theorem liquidation_check_is_idempotent (step step' : nat) (time time' : Z)
  (spot : R) (status : SimulationStatus) :
  exists status' actions,
    _check_liquidations step time spot status = Ok (status', actions) /\
    Forall (fun p => is_liquidated p spot = false) (positions status') /\
    _check_liquidations step' time' spot status' = Ok (status', []).
Proof.
  rewrite _check_liquidations_eq. eexists. eexists.
  split; [reflexivity |]. cbn [positions]. split.
  - apply Forall_forall. intros p Hp. apply filter_In in Hp.
    destruct Hp as [_ Hp]. unfold liquidated_now in Hp.
    now apply negb_true_iff in Hp.
  - rewrite _check_liquidations_eq. cbn [positions primary secondary].
    rewrite !filter_filter.
    rewrite (filter_ext_in_eq
               (fun x => negb (liquidated_now spot x)
                         && negb (liquidated_now spot x))%bool
               (fun x => negb (liquidated_now spot x))),
      (filter_ext_in_eq
         (fun x => negb (liquidated_now spot x) && liquidated_now spot x)%bool
         (fun _ => false)).
    + assert (E : forall l : list OptionPosition, filter (fun _ => false) l = [])
        by (induction l; auto).
      rewrite E. reflexivity.
    + intros a _. destruct (liquidated_now spot a); reflexivity.
    + intros a _. destruct (liquidated_now spot a); reflexivity.
Qed.

(** X17.  After the expiration check no open position is expired at that
    time, and running the check again credits nothing and logs
    nothing. *)
Theorem expiration_check_is_idempotent (step step' : nat) (time : Z)
  (spot spot' : R) (status : SimulationStatus) :
  exists status' actions,
    _check_expirations step time spot status = Ok (status', actions) /\
    Forall (fun p => is_expired p time = false) (positions status') /\
    _check_expirations step' time spot' status' = Ok (status', []).
Proof.
  rewrite _check_expirations_eq. eexists. eexists.
  split; [reflexivity |]. cbn [positions]. split.
  - apply Forall_forall. intros p Hp. apply filter_In in Hp.
    destruct Hp as [_ Hp]. unfold expired_now in Hp.
    now apply negb_true_iff in Hp.
  - rewrite _check_expirations_eq. cbn [positions primary secondary].
    rewrite !filter_filter.
    rewrite (filter_ext_in_eq
               (fun x => negb (expired_now time x)
                         && negb (expired_now time x))%bool
               (fun x => negb (expired_now time x))),
      (filter_ext_in_eq
         (fun x => negb (expired_now time x) && expired_now time x)%bool
         (fun _ => false)).
    + assert (E : forall l : list OptionPosition, filter (fun _ => false) l = [])
        by (induction l; auto).
      rewrite E. reflexivity.
    + intros a _. destruct (expired_now time a); reflexivity.
    + intros a _. destruct (expired_now time a); reflexivity.
Qed.

(** X18.  The liquidation check keeps every long position, in the order
    they had, and so leaves the number and the total size of the long
    positions, like the liquidity, as they were. *)
Theorem liquidation_check_keeps_longs (step : nat) (time : Z) (spot : R)
  (status : SimulationStatus) :
  exists status' actions,
    _check_liquidations step time spot status = Ok (status', actions) /\
    filter is_long (positions status') = filter is_long (positions status) /\
    num_long_positions status' = num_long_positions status /\
    size_long_positions status' = size_long_positions status /\
    liquidity status' spot = liquidity status spot.
Proof.
  rewrite _check_liquidations_eq. eexists. eexists.
  split; [reflexivity |].
  assert (E : filter is_long
                (filter (fun p => negb (liquidated_now spot p))
                   (positions status))
              = filter is_long (positions status)).
  { rewrite filter_filter. apply filter_ext_in_eq. intros p _.
    unfold liquidated_now, is_liquidated, is_short, is_long, Rltb.
    destruct (Rlt_dec 0 (size p)); [| now rewrite andb_false_r].
    destruct (Rlt_dec (size p) 0); [lra |].
    now rewrite andb_false_r. }
  unfold num_long_positions, size_long_positions, liquidity.
  cbn [positions primary secondary]. rewrite E. auto.
Qed.

(** X19.  Liquidation comes before expiration: after the two checks of a
    step, the positions left are those neither liquidated nor expired,
    every expiration action is about a position that was not liquidated,
    and the primary balance has grown by the settlements of these
    positions only, so that an expired position that is liquidated is
    credited nothing. *)
Theorem liquidation_precedes_expiration (step : nat) (time : Z) (spot : R)
  (status : SimulationStatus) :
  exists status1 liq_actions status2 exp_actions,
    _check_liquidations step time spot status = Ok (status1, liq_actions) /\
    _check_expirations step time spot status1 = Ok (status2, exp_actions) /\
    positions status2 =
      filter (fun p => negb (is_liquidated p spot) && negb (is_expired p time))
        (positions status) /\
    Forall (fun a => exists p, a_position a = Some p /\
                               is_liquidated p spot = false /\
                               is_expired p time = true) exp_actions /\
    primary status2 =
      fold_left (fun acc p => acc + settlement spot p)
        (filter (fun p => negb (is_liquidated p spot) && is_expired p time)
           (positions status))
        (primary status).
Proof.
  rewrite _check_liquidations_eq. eexists. eexists.
  rewrite _check_expirations_eq. eexists. eexists.
  split; [reflexivity |]. split; [reflexivity |].
  cbn [positions primary secondary]. rewrite !filter_filter.
  split; [reflexivity |]. split; [| reflexivity].
  apply Forall_forall. intros a Ha. apply in_map_iff in Ha.
  destruct Ha as (p & <- & Hp). exists p. split; [reflexivity |].
  apply filter_In in Hp. destruct Hp as [_ Hp].
  apply andb_true_iff in Hp. destruct Hp as [H1 H2].
  split; [now apply negb_true_iff in H1 | exact H2].
Qed.

(** ** The shape of the timeline *)

Lemma iterate_from_nth_shape {Mem : Type} (self : OptionSimulator Mem)
  (start interval : Z) (remaining : nat) :
  forall (i k : nat) (last_spot : R) (last_chain : option OptionChain)
         (t : timeline_step),
    nth_error
      (iterate_from self start interval i remaining last_spot last_chain) k
    = Some t ->
    step_index t = (i + k)%nat /\
    step_time t = timestamp_at start interval (i + k).
Proof.
  induction remaining as [| n IH]; intros i k ls lc t H.
  - destruct k; discriminate.
  - cbn [iterate_from] in H.
    destruct (get_timestamp_chain _ _ _) as [[s |] c];
      destruct k as [| k]; simpl in H.
    + injection H as <-. rewrite Nat.add_0_r. split; reflexivity.
    + apply IH in H. now replace (i + S k)%nat with (S i + k)%nat by lia.
    + injection H as <-. rewrite Nat.add_0_r. split; reflexivity.
    + apply IH in H. now replace (i + S k)%nat with (S i + k)%nat by lia.
Qed.

(** A zero interval makes the iterator raise. *)
Lemma iterate_timeline_zero_interval {Mem : Type}
  (self : OptionSimulator Mem) (start end_ : Z) :
  _iterate_timeline self start end_ 0 = Raise ZeroDivisionError.
Proof. reflexivity. Qed.

(** X20.  For an interval that is not zero the iterator yields
    [(end - start) / interval] steps, rounded towards zero and none when
    that is negative; the step at position [i] carries the number [i]
    and the timestamp [start + i * interval]. *)
Theorem iterate_timeline_shape {Mem : Type} (self : OptionSimulator Mem)
  (start end_ interval : Z) :
  interval <> 0%Z ->
  exists steps,
    _iterate_timeline self start end_ interval = Ok steps /\
    length steps = Z.to_nat ((end_ - start) ÷ interval) /\
    forall i t, nth_error steps i = Some t ->
                step_index t = i /\
                step_time t = timestamp_at start interval i.
Proof.
  intros Hne. unfold _iterate_timeline, num_steps.
  apply Z.eqb_neq in Hne. rewrite Hne. cbn [bind].
  eexists. split; [reflexivity |]. split.
  - apply iterate_from_length.
  - intros i t H. apply iterate_from_nth_shape in H. exact H.
Qed.

Lemma iterate_timeline_shape_witness :
  exists steps,
    _iterate_timeline gap_simulator 0 10800 3600 = Ok steps /\
    length steps = Z.to_nat ((10800 - 0) ÷ 3600) /\
    forall i t, nth_error steps i = Some t ->
                step_index t = i /\ step_time t = timestamp_at 0 3600 i.
Proof.
  apply (iterate_timeline_shape gap_simulator 0 10800 3600). discriminate.
Defined.

(** X21.  A step whose timestamp has quote data yields the spot and the
    chain of that timestamp, whatever the steps before it yielded. *)
Theorem step_with_data_uses_it {Mem : Type} (self : OptionSimulator Mem)
  (start end_ interval : Z) (steps : list timeline_step) (i : nat)
  (s : R) (c : OptionChain) :
  _iterate_timeline self start end_ interval = Ok steps ->
  (i < length steps)%nat ->
  get_timestamp_chain (chain_timeline self) (timestamp_at start interval i) 0
    = (Some s, c) ->
  exists signal,
    nth_error steps i
    = Some (i, timestamp_at start interval i, s, signal, Some c).
Proof.
  intros Hsteps Hi Hdata.
  pose proof (_iterate_timeline_length self start interval end_ steps Hsteps)
    as Hn.
  unfold _iterate_timeline in Hsteps. rewrite Hn in Hsteps.
  cbn [bind] in Hsteps. injection Hsteps as Hsteps.
  destruct (iterate_from_fill self start interval i (length steps) 0 i 1 None
              s c) as (signal & E);
    [lia | exact Hdata | intros m Hm; lia |].
  rewrite Hsteps in E. exists signal. exact E.
Qed.

Lemma step_with_data_uses_it_witness :
  exists steps signal,
    _iterate_timeline gap_simulator 0 10800 3600 = Ok steps /\
    nth_error steps 2
    = Some (2%nat, 7200%Z, mean [1 * 120], signal,
            Some (new_OptionChain [later_quote] 1 (5 / 4) 0)).
Proof.
  assert (Hsteps : _iterate_timeline gap_simulator 0 10800 3600
                   = Ok (iterate_from gap_simulator 0 3600 0 3 1 None))
    by reflexivity.
  destruct (step_with_data_uses_it gap_simulator 0 10800 3600 _ 2
              (mean [1 * 120]) (new_OptionChain [later_quote] 1 (5 / 4) 0)
              Hsteps) as (signal & E).
  - rewrite iterate_from_length. lia.
  - reflexivity.
  - eexists. exists signal. split; [exact Hsteps | exact E].
Defined.

(** ** The strategy a step selects *)

Lemma fold_max_ge (l : list nat) (a x : nat) :
  In x l \/ (x <= a)%nat -> (x <= fold_left Nat.max l a)%nat.
Proof.
  revert a. induction l as [| y l IH]; intros a H; simpl.
  - destruct H as [[] | H]. exact H.
  - apply IH. destruct H as [[-> | H] | H]; [right; lia | now left | right; lia].
Qed.

Lemma timing_signal_get_In (signal : list (Z * nat)) (timestamp : Z)
  (v : nat) :
  timing_signal_get signal timestamp = Some v -> In v (map snd signal).
Proof.
  unfold timing_signal_get. destruct (find _ signal) as [kv |] eqn:E;
    [| discriminate].
  intros H. injection H as <-. apply find_some in E.
  apply in_map, E.
Qed.

Lemma last_In_or_default {A : Type} (l : list A) (d : A) :
  In (last l d) l \/ last l d = d.
Proof.
  induction l as [| a l IH]; [now right |].
  destruct l as [| b l]; [left; now left |].
  change (last (a :: b :: l) d) with (last (b :: l) d).
  destruct IH as [H | H]; [left; right; exact H | right; exact H].
Qed.

Lemma yielded_signal_known {Mem : Type} (self : OptionSimulator Mem)
  (start interval : Z) (remaining : nat) :
  forall (i : nat) (last_spot : R) (last_chain : option OptionChain),
    Forall (fun t => In (step_signal t) (map snd (timing_signal self))
                     \/ step_signal t = 0%nat)
      (iterate_from self start interval i remaining last_spot last_chain).
Proof.
  induction remaining as [| n IH]; intros i ls lc; cbn [iterate_from];
    [constructor |].
  destruct (get_timestamp_chain _ _ _) as [[s |] c]; constructor;
    try apply IH; cbn [step_signal];
    destruct (timing_signal_get _ _) as [v |] eqn:Eg;
    try (left; eapply timing_signal_get_In; exact Eg);
    unfold previous_signal;
    match goal with
    | |- context [last ?l 0%nat] =>
        destruct (last_In_or_default l 0%nat) as [H | H];
          [left | right; exact H]
    end;
    apply in_map_iff in H; destruct H as (kv & Ekv & Hkv);
    apply filter_In in Hkv; rewrite <- Ekv; apply in_map, Hkv.
Qed.

(** X22.  In a simulator whose constructor succeeded, every step of the
    timeline carries the index of one of its strategies: choosing the
    strategy of a step never fails. *)
Theorem constructed_simulator_selects_strategy {Mem : Type}
  (chain_timeline : OptionChainTimeline)
  (strategy_list : list (BaseOptionStrategy Mem))
  (signal : option (list (Z * nat))) (self : OptionSimulator Mem)
  (start end_ interval : Z) (steps : list timeline_step) :
  new_OptionSimulator chain_timeline strategy_list signal = Constructed self ->
  _iterate_timeline self start end_ interval = Ok steps ->
  Forall (fun t => exists strategy,
                     nth_error (strategies self) (step_signal t)
                     = Some strategy) steps.
Proof.
  intros Hnew Hsteps.
  assert (Hbound : (0 < length (strategies self))%nat /\
                   forall v, In v (map snd (timing_signal self)) ->
                             (v < length (strategies self))%nat).
  { unfold new_OptionSimulator in Hnew.
    destruct (0 <? length strategy_list)%nat eqn:E0; [| discriminate].
    apply Nat.ltb_lt in E0. cbn [negb] in Hnew.
    destruct signal as [[| kv sig] |].
    - discriminate.
    - destruct (fold_left Nat.max (map snd (kv :: sig)) 0
                <? length strategy_list)%nat eqn:Em; [| discriminate].
      apply Nat.ltb_lt in Em. cbn [negb] in Hnew.
      injection Hnew as <-. cbn [strategies timing_signal].
      split; [exact E0 |]. intros v Hv.
      apply in_map_iff in Hv. destruct Hv as (kv' & <- & Hin).
      assert (Hin' : In kv' (kv :: sig)).
      { apply (sort_by_In (fun a b : Z * nat => (fst a <=? fst b)%Z)).
        exact Hin. }
      eapply Nat.le_lt_trans; [| exact Em].
      apply fold_max_ge. left. now apply in_map.
    - injection Hnew as <-. cbn [strategies timing_signal].
      split; [exact E0 |]. intros v []. }
  destruct Hbound as [Hpos Hall].
  unfold _iterate_timeline in Hsteps.
  destruct (num_steps start end_ interval) as [n |]; [| discriminate].
  cbn [bind] in Hsteps. injection Hsteps as <-.
  eapply Forall_impl; [| apply yielded_signal_known].
  intros t Ht.
  assert (Hlt : (step_signal t < length (strategies self))%nat).
  { destruct Ht as [Ht | ->]; [now apply Hall | exact Hpos]. }
  apply nth_error_Some in Hlt.
  destruct (nth_error (strategies self) (step_signal t));
    [eauto | congruence].
Qed.

Lemma constructed_simulator_selects_strategy_witness :
  Forall (fun t => exists strategy,
                     nth_error (strategies gap_simulator) (step_signal t)
                     = Some strategy)
    (iterate_from gap_simulator 0 3600 0 3 1 None).
Proof.
  apply (constructed_simulator_selects_strategy gap_timeline [idle] None
           gap_simulator 0 10800 3600).
  - reflexivity.
  - reflexivity.
Defined.

(** ** The timeline of a run *)

Lemma simulate_step_row_time {ext : Externals} {Mem : Type}
  (self : OptionSimulator Mem) (st st' : run_state Mem) (t : timeline_step) :
  simulate_step self st t = Ok st' ->
  exists row,
    rs_timeline st' = rs_timeline st ++ [row] /\
    r_timestamp row = step_time t /\
    r_liquidity row = r_primary row + r_secondary row * r_spot row.
Proof.
  destruct t as [[[[step time] spot] signal] chain].
  unfold simulate_step. intros H.
  rewrite _check_liquidations_eq in H. cbn [bind] in H.
  rewrite _check_expirations_eq in H. cbn [bind] in H.
  destruct (nth_error (strategies self) signal) as [strategy |];
    [| discriminate].
  cbn [bind] in H.
  destruct (execute strategy _ _ _ _ _ _ _)
    as [[[mem' status3] strategy_actions] |]; [| discriminate].
  cbn [bind] in H.
  destruct (_get_timeline_row _ _ _ _) as [row |] eqn:Er; [| discriminate].
  cbn [bind] in H. injection H as <-. cbn [rs_timeline].
  exists row. split; [reflexivity |].
  unfold _get_timeline_row in Er.
  destruct (sum_results _ _ _); [| discriminate]. cbn [bind] in Er.
  destruct (positions_delta _ _ _ _); [| discriminate]. cbn [bind] in Er.
  injection Er as <-. split; reflexivity.
Qed.

Lemma simulate_loop_row_times {ext : Externals} {Mem : Type}
  (self : OptionSimulator Mem) (steps : list timeline_step) :
  forall st st' : run_state Mem,
    simulate_loop self st steps = Ok st' ->
    exists rows,
      rs_timeline st' = rs_timeline st ++ rows /\
      map r_timestamp rows = map step_time steps /\
      Forall (fun row => r_liquidity row
                         = r_primary row + r_secondary row * r_spot row) rows.
Proof.
  induction steps as [| t steps IH]; intros st st' H; simpl in H.
  - injection H as <-. exists []. rewrite app_nil_r. auto.
  - destruct (simulate_step self st t) as [st1 |] eqn:E1; [| discriminate].
    cbn [bind] in H.
    destruct (simulate_step_row_time _ _ _ _ E1) as (row & Hrow & Ht & Hl).
    destruct (IH _ _ H) as (rows & Hrows & Hts & Hls).
    exists (row :: rows). split; [| split].
    + rewrite Hrows, Hrow, <- app_assoc. reflexivity.
    + simpl. now rewrite Ht, Hts.
    + constructor; assumption.
Qed.

(** X23.  When the loop of [simulate] runs to its end, the timeline it
    hands to [SimulationResult] has exactly one row for each of the
    [(end - start) / time_step] steps; the row at position [i] carries
    the timestamp [start + i * time_step], and its liquidity is its
    primary balance plus its secondary balance at its spot. *)
Theorem completed_run_timeline {ext : Externals} {Mem : Type}
  (self : OptionSimulator Mem) (mem : Mem) (start end_ : Z)
  (starting_capital : R) (time_step : Z) (result : SimulationResult) :
  simulate self mem start end_ starting_capital time_step = Ok result ->
  time_step <> 0%Z /\
  length (timeline result) = Z.to_nat ((end_ - start) ÷ time_step) /\
  forall i row,
    nth_error (timeline result) i = Some row ->
    r_timestamp row = timestamp_at start time_step i /\
    r_liquidity row = r_primary row + r_secondary row * r_spot row.
Proof.
  unfold simulate. intros H.
  destruct (_iterate_timeline self start end_ time_step) as [steps |] eqn:Es;
    [| discriminate].
  cbn [bind] in H.
  destruct (simulate_loop _ _ _) as [st |] eqn:El; [| discriminate].
  cbn [bind] in H. injection H as <-. cbn [timeline].
  apply simulate_loop_row_times in El.
  destruct El as (rows & Hrows & Hts & Hls).
  cbn [rs_timeline app] in Hrows. rewrite Hrows.
  assert (Hne : time_step <> 0%Z).
  { intros ->. rewrite iterate_timeline_zero_interval in Es. discriminate. }
  unfold _iterate_timeline, num_steps in Es.
  rewrite (proj2 (Z.eqb_neq _ _) Hne) in Es. cbn [bind] in Es.
  injection Es as <-.
  split; [exact Hne |]. split.
  - rewrite <- (length_map r_timestamp), Hts, length_map.
    apply iterate_from_length.
  - intros i row Hrow. split.
    + assert (Hm : nth_error (map r_timestamp rows) i
                   = Some (r_timestamp row))
        by (rewrite nth_error_map, Hrow; reflexivity).
      rewrite Hts, nth_error_map in Hm.
      destruct (nth_error (iterate_from _ _ _ _ _ _ _) i) as [t |] eqn:Et;
        [| discriminate].
      injection Hm as <-. apply iterate_from_nth_shape in Et. apply Et.
    + rewrite Forall_forall in Hls. apply Hls.
      eapply nth_error_In, Hrow.
Qed.

Lemma completed_run_timeline_witness :
  exists result,
    @simulate stalled unit gap_simulator tt 0 10800 1000000 3600 = Ok result /\
    (3600 <> 0)%Z /\
    length (timeline result) = Z.to_nat ((10800 - 0) ÷ 3600) /\
    forall i row,
      nth_error (timeline result) i = Some row ->
      r_timestamp row = timestamp_at 0 3600 i /\
      r_liquidity row = r_primary row + r_secondary row * r_spot row.
Proof.
  eexists. split; [reflexivity |].
  apply (@completed_run_timeline stalled unit gap_simulator tt 0 10800
           1000000 3600).
  reflexivity.
Defined.

(** ** The helpers shared by the strategies *)

Lemma np_div_ok (a b : R) : b <> 0 -> np_div a b = Ok (a / b).
Proof.
  intros Hb. unfold np_div. destruct (Req_dec_T b 0); [contradiction |].
  reflexivity.
Qed.

Lemma find_app_first {A : Type} (f : A -> bool) (l1 l2 : list A) :
  find f (l1 ++ l2) = match find f l1 with
                      | Some x => Some x
                      | None => find f l2
                      end.
Proof.
  induction l1 as [| x l1 IH]; simpl; [reflexivity |].
  destruct (f x); [reflexivity | exact IH].
Qed.

Lemma find_all_false {A : Type} (f : A -> bool) (l : list A) :
  find f l = None <-> Forall (fun b => f b = false) l.
Proof.
  induction l as [| x l IH]; simpl.
  - split; [constructor | reflexivity].
  - destruct (f x) eqn:E; split; intros H.
    + discriminate.
    + inversion H; congruence.
    + constructor; [exact E | now apply IH].
    + inversion H; now apply IH.
Qed.

Lemma Forall_rev_iff {A : Type} (P : A -> Prop) (l : list A) :
  Forall P (rev l) <-> Forall P l.
Proof.
  rewrite !Forall_forall. split; intros H x Hx; apply H.
  - now apply in_rev in Hx.
  - now apply in_rev.
Qed.

(** The newest element passing a test is found by scanning the reversed
    list. *)
Lemma find_rev_newest {A : Type} (f : A -> bool) (l : list A) (a : A) :
  find f (rev l) = Some a <->
  exists pre post,
    l = pre ++ a :: post /\ f a = true /\
    Forall (fun b => f b = false) post.
Proof.
  induction l as [| x l IH] using rev_ind.
  - simpl. split; [discriminate |].
    intros (pre & post & H & _). destruct pre; discriminate.
  - rewrite rev_app_distr. simpl. destruct (f x) eqn:E.
    + split.
      * intros H. injection H as <-. exists l, []. auto.
      * intros (pre & post & H & Ha & Hpost).
        destruct post as [| y post] using rev_ind.
        -- apply app_inj_tail in H. destruct H as [_ ->]. reflexivity.
        -- clear IHpost.
           replace (pre ++ a :: post ++ [y])
             with ((pre ++ a :: post) ++ [y]) in H
             by (now rewrite <- app_assoc).
           apply app_inj_tail in H. destruct H as [_ ->].
           apply Forall_app in Hpost. destruct Hpost as [_ Hy].
           inversion Hy; congruence.
    + rewrite IH. split.
      * intros (pre & post & -> & Ha & Hpost).
        exists pre, (post ++ [x]). split; [| split].
        -- now rewrite <- app_assoc.
        -- exact Ha.
        -- apply Forall_app. split; [exact Hpost |]. constructor; auto.
      * intros (pre & post & H & Ha & Hpost).
        destruct post as [| y post] using rev_ind.
        -- apply app_inj_tail in H. destruct H as [_ ->]. congruence.
        -- clear IHpost.
           replace (pre ++ a :: post ++ [y])
             with ((pre ++ a :: post) ++ [y]) in H
             by (now rewrite <- app_assoc).
           apply app_inj_tail in H. destruct H as [-> _].
           apply Forall_app in Hpost. destruct Hpost as [Hpost _].
           exists pre, post. auto.
Qed.

(** X24.  [_get_last_strategy_action_time] answers [None] exactly when
    no action of the log passes the filter (a purchase or a sale when no
    filter is given, the given type otherwise); it answers a time
    exactly when that is the timestamp of an action that passes the
    filter and is followed in the log by none that does. *)
Theorem last_action_time_is_newest (action_log : list SimulationAction)
  (filter_type : option action_type) :
  (_get_last_strategy_action_time action_log filter_type = None <->
   Forall (fun b => wanted_action filter_type b = false) action_log) /\
  (forall t,
     _get_last_strategy_action_time action_log filter_type = Some t <->
     exists pre a post,
       action_log = pre ++ a :: post /\
       wanted_action filter_type a = true /\
       a_timestamp a = t /\
       Forall (fun b => wanted_action filter_type b = false) post).
Proof.
  unfold _get_last_strategy_action_time. split.
  - rewrite <- Forall_rev_iff, <- find_all_false.
    destruct (find _ _); simpl; split; congruence.
  - intros t. split.
    + destruct (find _ _) as [a |] eqn:E; simpl; [| discriminate].
      intros H. injection H as <-.
      apply find_rev_newest in E. destruct E as (pre & post & H1 & H2 & H3).
      exists pre, a, post. auto.
    + intros (pre & a & post & H1 & H2 & <- & H3).
      assert (E : find (wanted_action filter_type) (rev action_log) = Some a)
        by (apply find_rev_newest; exists pre, post; auto).
      rewrite E. reflexivity.
Qed.

Lemma last_action_time_skips (filter_type : option action_type)
  (action_log skipped newer : list SimulationAction) :
  Forall (fun b => wanted_action filter_type b = false) skipped ->
  _get_last_strategy_action_time (action_log ++ skipped ++ newer) filter_type
  = _get_last_strategy_action_time (action_log ++ newer) filter_type.
Proof.
  intros H. unfold _get_last_strategy_action_time.
  rewrite !rev_app_distr, <- app_assoc, !find_app_first.
  apply Forall_rev_iff, find_all_false in H. rewrite H. reflexivity.
Qed.

Section ChecksAndClock.

Variables (step : nat) (time : Z) (spot : R).

(** X25.  The liquidations and expirations the simulator logs in a step
    do not move the time of the last trade: with them in the log, a
    strategy finds the same last purchase or sale as without them. *)
Theorem checks_keep_last_trade_time (status : SimulationStatus)
  (action_log strategy_actions : list SimulationAction) :
  exists status1 liq_actions status2 exp_actions,
    _check_liquidations step time spot status = Ok (status1, liq_actions) /\
    _check_expirations step time spot status1 = Ok (status2, exp_actions) /\
    _get_last_strategy_action_time
      (action_log ++ liq_actions ++ exp_actions ++ strategy_actions) None
    = _get_last_strategy_action_time (action_log ++ strategy_actions) None.
Proof.
  rewrite _check_liquidations_eq. do 2 eexists.
  rewrite _check_expirations_eq. do 2 eexists.
  split; [reflexivity |]. split; [reflexivity |].
  rewrite last_action_time_skips.
  - apply last_action_time_skips.
    apply Forall_forall. intros a Ha. apply in_map_iff in Ha.
    destruct Ha as (p & <- & _). reflexivity.
  - apply Forall_forall. intros a Ha. apply in_map_iff in Ha.
    destruct Ha as (p & <- & _). reflexivity.
Qed.

End ChecksAndClock.

(** X26.  At a spot that is not zero [_add_and_rebalance] adds the
    quantity to the liquidity and splits the total: the share [delta]
    of it is held in the secondary currency, the rest in the primary;
    the positions are not touched. *)
Theorem add_and_rebalance_conserves (quantity : R)
  (status : SimulationStatus) (delta spot : R) :
  spot <> 0 ->
  exists status',
    _add_and_rebalance quantity status delta spot = Ok status' /\
    liquidity status' spot = liquidity status spot + quantity /\
    secondary status' * spot = (liquidity status spot + quantity) * delta /\
    primary status' = (liquidity status spot + quantity) * (1 - delta) /\
    positions status' = positions status.
Proof.
  intros Hs. unfold _add_and_rebalance. rewrite np_div_ok by exact Hs.
  cbn [bind]. eexists. split; [reflexivity |].
  unfold liquidity. cbn [primary secondary positions].
  repeat split; field; exact Hs.
Qed.

Lemma add_and_rebalance_conserves_witness :
  exists status',
    _add_and_rebalance 50 funded (1 / 2) 100 = Ok status' /\
    liquidity status' 100 = liquidity funded 100 + 50 /\
    secondary status' * 100 = (liquidity funded 100 + 50) * (1 / 2) /\
    primary status' = (liquidity funded 100 + 50) * (1 - 1 / 2) /\
    positions status' = positions funded.
Proof.
  apply (add_and_rebalance_conserves 50 funded (1 / 2) 100). lra.
Defined.

(** ** The option seller *)

Section Seller.

Context {ext : Externals}.

(** X27.  While the newest purchase or sale of the log is less than
    [trade_interval] old, [execute] hands the status back as it is and
    reports no action; it does not look at the chain, which may be
    missing. *)
Theorem option_selling_waits (self : OptionSellingStrategy) (step : nat)
  (time : Z) (spot : R) (status : SimulationStatus)
  (chain : option OptionChain) (pre post : list SimulationAction)
  (a : SimulationAction) :
  a_type a = buy \/ a_type a = sell ->
  Forall (fun b => a_type b = liquidation \/ a_type b = expiration) post ->
  (time - a_timestamp a < os_trade_interval self)%Z ->
  OptionSellingStrategy_execute self step time spot status chain
    (pre ++ a :: post)
  = Ok (status, []).
Proof.
  intros Ha Hpost Hrecent.
  assert (E : _get_last_strategy_action_time (pre ++ a :: post) None
              = Some (a_timestamp a)).
  { unfold _get_last_strategy_action_time.
    assert (F : find (wanted_action None) (rev (pre ++ a :: post)) = Some a).
    { apply find_rev_newest. exists pre, post. split; [reflexivity |]. split.
      - unfold wanted_action. destruct Ha as [-> | ->]; reflexivity.
      - eapply Forall_impl; [| exact Hpost].
        intros b [Hb | Hb]; unfold wanted_action; rewrite Hb; reflexivity. }
    rewrite F. reflexivity. }
  unfold OptionSellingStrategy_execute, trade_due. rewrite E.
  apply Z.leb_gt in Hrecent. rewrite Hrecent. reflexivity.
Qed.

(** X28.  When a trade is due, the chain prices the option, and the
    spot, the concurrency and the collateralization ratio are not zero,
    [execute] sells: it reports one sale, of a new short position that
    is appended to the positions and matures [time_to_maturity] later.
    The collateral locked in the position is the liquidity times the
    utilization ratio, divided by the concurrency, and it equals the
    size sold times the spot times the collateralization ratio.  The
    liquidity changes by the premium less the collateral. *)
Theorem option_selling_trade (self : OptionSellingStrategy) (step : nat)
  (time : Z) (spot : R) (status : SimulationStatus) (chain : OptionChain)
  (action_log : list SimulationAction) (price k iv : R) :
  trade_due self time action_log = true ->
  pricing_fn self chain (os_target self) (os_maturity_days self)
    (os_option_type self) bid = Ok (price, k, iv) ->
  spot <> 0 ->
  os_concurrency self <> 0%Z ->
  os_collateralization_ratio self <> 0 ->
  exists status' position liquidity_change,
    OptionSellingStrategy_execute self step time spot status (Some chain)
      action_log
    = Ok (status',
          [{| a_step := step; a_timestamp := time; a_spot := spot;
              a_type := sell; a_position := Some position;
              a_liquidity_change := Some liquidity_change |}]) /\
    positions status' = positions status ++ [position] /\
    type position = os_option_type self /\
    strike position = k /\
    maturity position = (time + os_time_to_maturity self)%Z /\
    price_start position = Some price /\
    collateral_value position spot * IZR (os_concurrency self)
    = liquidity status spot * os_utilization_ratio self /\
    - size position * spot * os_collateralization_ratio self
    = collateral_value position spot /\
    liquidity_change
    = price * - size position - collateral_value position spot /\
    liquidity status' spot = liquidity status spot + liquidity_change.
Proof.
  intros Hdue Hprice Hs Hc Hr.
  assert (Hc' : IZR (os_concurrency self) <> 0)
    by (intros H; apply Hc; now apply eq_IZR).
  unfold OptionSellingStrategy_execute, _add_and_rebalance.
  rewrite Hdue. cbn [bind]. rewrite Hprice. cbn [bind].
  repeat (rewrite np_div_ok by assumption; cbn [bind]).
  destruct (os_cash_collat self) eqn:Ecash;
    repeat (rewrite np_div_ok by assumption; cbn [bind]);
    (do 3 eexists; split; [reflexivity |]);
    unfold collateral_value, liquidity;
    cbn [positions type strike maturity price_start
         collateral_primary collateral_secondary size primary secondary];
    repeat split; field; repeat split; assumption.
Qed.

End Seller.

Lemma option_selling_waits_witness :
  @OptionSellingStrategy_execute stalled weekly_calls 1 3600 100 funded None
    ([] ++ sale_at_start :: [])
  = Ok (funded, []).
Proof.
  apply (@option_selling_waits stalled weekly_calls 1 3600 100 funded None
           [] [] sale_at_start).
  - right. reflexivity.
  - constructor.
  - reflexivity.
Defined.

Lemma weekly_call_quote :
  @pricing_fn stalled weekly_calls put_only_chain (1 / 10) 7 call bid
  = Ok (3, oc_spot put_only_chain / (1 + 1 / 10), 1).
Proof.
  unfold pricing_fn, get_price_by_moneyness. cbn [os_mode weekly_calls].
  destruct (Req_dec_T (1 + 1 / 10) 0) as [H | _]; [lra |]. cbn [bind].
  rewrite _interpolate_chain_default by (simpl; lia). reflexivity.
Qed.

Lemma option_selling_trade_witness :
  exists status' position liquidity_change,
    @OptionSellingStrategy_execute stalled weekly_calls 0 0 100 funded
      (Some put_only_chain) []
    = Ok (status',
          [{| a_step := 0; a_timestamp := 0; a_spot := 100;
              a_type := sell; a_position := Some position;
              a_liquidity_change := Some liquidity_change |}]) /\
    positions status' = positions funded ++ [position] /\
    type position = call /\
    strike position = oc_spot put_only_chain / (1 + 1 / 10) /\
    maturity position = (0 + week)%Z /\
    price_start position = Some 3 /\
    collateral_value position 100 * IZR 1 = liquidity funded 100 * 1 /\
    - size position * 100 * 1 = collateral_value position 100 /\
    liquidity_change = 3 * - size position - collateral_value position 100 /\
    liquidity status' 100 = liquidity funded 100 + liquidity_change.
Proof.
  apply (@option_selling_trade stalled weekly_calls 0 0 100 funded
           put_only_chain [] 3 (oc_spot put_only_chain / (1 + 1 / 10)) 1).
  - reflexivity.
  - exact weekly_call_quote.
  - lra.
  - discriminate.
  - simpl. lra.
Defined.

(** ** A seller in a run *)

(** X29.  A run whose only strategy is an option seller and whose first
    timestamp has no quote data stops at its first step with an
    attribute error: the seller's first trade is due at once, and there
    is no chain to price it. *)
Theorem seller_needs_data_at_start {ext : Externals} {Mem : Type}
  (ct : OptionChainTimeline) (seller_strategy : OptionSellingStrategy)
  (self : OptionSimulator Mem) (mem : Mem) (start end_ : Z)
  (starting_capital : R) (time_step : Z) :
  new_OptionSimulator ct [option_selling seller_strategy] None
  = Constructed self ->
  time_step <> 0%Z ->
  (1 <= (end_ - start) ÷ time_step)%Z ->
  no_data self start time_step 0 ->
  simulate self mem start end_ starting_capital time_step
  = Raise AttributeError.
Proof.
  intros Hnew Hne Hsteps Hno. cbn in Hnew. injection Hnew as <-.
  unfold no_data, timestamp_at in Hno. cbn [chain_timeline] in Hno.
  unfold simulate, _iterate_timeline, num_steps.
  rewrite (proj2 (Z.eqb_neq _ _) Hne). cbn [bind].
  destruct (Z.to_nat ((end_ - start) ÷ time_step)) as [| n] eqn:En; [lia |].
  cbn [iterate_from chain_timeline].
  destruct (get_timestamp_chain ct (start + Z.of_nat 0 * time_step) 0)
    as [[s |] c]; [discriminate |].
  cbn [simulate_loop]. unfold simulate_step.
  rewrite _check_liquidations_eq. cbn [bind].
  rewrite _check_expirations_eq. cbn [bind].
  reflexivity.
Qed.

Lemma seller_needs_data_at_start_witness :
  @simulate stalled unit
    {| chain_timeline := gap_timeline;
       strategies := [@option_selling stalled unit weekly_calls];
       timing_signal := [] |} tt 3600 10800 1000 3600
  = Raise AttributeError.
Proof.
  apply (@seller_needs_data_at_start stalled unit gap_timeline weekly_calls
           _ tt 3600 10800 1000 3600).
  - reflexivity.
  - discriminate.
  - vm_compute. discriminate.
  - reflexivity.
Defined.

(** ** The seller's constructor *)

(** X30.  For a trade interval that is positive the constructor
    succeeds, and the concurrency it computes is the number of trade
    intervals a position stays open: the least whole number of intervals
    that covers the time to maturity.  When no time to maturity is
    given it is the trade interval, and the concurrency is one. *)
Theorem concurrency_covers_maturity (trade_interval : Z)
  (time_to_maturity : option Z)
  (collateralization_ratio utilization_ratio : R)
  (option_type : option_type) (mode : pricing_mode)
  (target liquidity_delta : R) (collateral_mode : option collateral_mode) :
  (0 < trade_interval)%Z ->
  exists self,
    new_OptionSellingStrategy trade_interval time_to_maturity
      collateralization_ratio utilization_ratio option_type mode target
      liquidity_delta collateral_mode = Ok self /\
    os_trade_interval self = trade_interval /\
    ((os_concurrency self - 1) * trade_interval < os_time_to_maturity self
     <= os_concurrency self * trade_interval)%Z /\
    match time_to_maturity with
    | Some t => os_time_to_maturity self = t
    | None => os_time_to_maturity self = trade_interval /\
              os_concurrency self = 1%Z
    end.
Proof.
  intros Hpos. unfold new_OptionSellingStrategy.
  assert (Hne : (trade_interval =? 0)%Z = false) by (apply Z.eqb_neq; lia).
  rewrite Hne. eexists. split; [reflexivity |].
  cbn [os_trade_interval os_concurrency os_time_to_maturity].
  assert (Hti : 0 < IZR trade_interval) by (now apply IZR_lt).
  set (ttm := match time_to_maturity with
              | Some t => t
              | None => trade_interval
              end).
  pose proof (Zceil_bound (IZR ttm / IZR trade_interval)) as [Hlo Hhi].
  set (c := Zceil (IZR ttm / IZR trade_interval)) in *.
  split; [reflexivity |]. split; [split |].
  - apply lt_IZR. rewrite mult_IZR, minus_IZR.
    apply (Rmult_lt_compat_r (IZR trade_interval)) in Hlo; [| exact Hti].
    replace (IZR ttm / IZR trade_interval * IZR trade_interval)
      with (IZR ttm) in Hlo by (field; lra).
    exact Hlo.
  - apply le_IZR. rewrite mult_IZR.
    apply (Rmult_le_compat_r (IZR trade_interval)) in Hhi; [| lra].
    replace (IZR ttm / IZR trade_interval * IZR trade_interval)
      with (IZR ttm) in Hhi by (field; lra).
    exact Hhi.
  - subst c ttm. destruct time_to_maturity as [t |]; [reflexivity |].
    split; [reflexivity |]. apply Zceil_eq.
    replace (IZR trade_interval / IZR trade_interval) with 1
      by (field; lra).
    lra.
Qed.

Lemma concurrency_covers_maturity_witness :
  exists self,
    new_OptionSellingStrategy 86400 (Some week) 1 1 put by_moneyness (1 / 10)
      0 None = Ok self /\
    os_trade_interval self = 86400%Z /\
    ((os_concurrency self - 1) * 86400 < os_time_to_maturity self
     <= os_concurrency self * 86400)%Z /\
    os_time_to_maturity self = week.
Proof.
  apply (concurrency_covers_maturity 86400 (Some week) 1 1 put by_moneyness
           (1 / 10) 0 None).
  reflexivity.
Defined.
